(** * Wallis' product for pi: the notebook function [w_pi]

    Source: [exercises/Wallis-Pi-solution.ipynb], code cell 9 (Python 3):
<<
    def w_pi(n):
        num = 1
        den = 1
        for i in range(1,n+1):
            tmp = 4*i*i
            num *= tmp
            den *= tmp-1
        return 2.0*(num/den)
>>
    Python integers are unbounded, so they are [Z] with plain [Z.mul].
    Python floats are IEEE 754 binary64 values; they are [spec_float]
    (sign, 53-bit mantissa, exponent) with the operations of the Standard
    Library's bit-level specification [SpecFloat] at [prec = 53],
    [emax = 1024].  Real-valued statements (the limit pi) use the
    Standard Library's reals.

    - Part I: the embedding of the function and of what the specification
      computes.
    - Part II: the loop leaves the two exact products in [num], [den].
    - Part III: the division of the two products rounds once, to the
      nearest float, and the factor [2.0] only moves the exponent.
    - Part IV: the partial products increase and stay below [PI]
      (Wallis integrals).
    - Part V: the real value of the returned float.
    - Part VI: totality of the call; size of the accumulators.
    - Part VII: the statements of the specification, one by one.
    - Part VIII: the returned float as a function of [n], its distance
      to pi, and the errors that the notebook's last cell plots:
<<
    nrange = np.linspace(10,2000,20).astype(int)
    wpi = np.array(list(map(w_pi, nrange)))
    diff = abs(wpi-np.pi)
    plt.semilogy(nrange,diff,'-o',mfc='red')
>>
*)

From Stdlib Require Import ZArith List Sorted Lia Bool.
From Stdlib Require Import Floats.
From Stdlib Require Import Reals Lra.
Import ListNotations.

#[local] Open Scope Z_scope.

(* ================================================================= *)
(** * Part I: definitions *)

(** ** The fragment of the Python runtime that [w_pi] uses *)

Module Py.

(** binary64 *)
Definition prec : Z := 53.
Definition emax : Z := 1024.
Definition float : Type := spec_float.

(** The exceptions that the operations below can raise. *)
Inductive exn : Type :=
| ZeroDivisionError
| OverflowError.

(** Outcome of evaluating an expression or a call. *)
Inductive outcome (A : Type) : Type :=
| Return (x : A)
| Raise (e : exn).
Arguments Return {A} x.
Arguments Raise {A} e.

(** [range(start, stop)] on integers: [start, start+1, ..., stop-1],
    empty when [stop <= start]. *)
Definition range (start stop : Z) : list Z :=
  map (fun k => start + Z.of_nat k) (seq 0 (Z.to_nat (stop - start))).

(** An integer as an unrounded (sign, mantissa, exponent 0) triple: the
    exact operand handed to the division. *)
Definition int_operand (a : Z) : float :=
  match a with
  | Z0 => S754_zero false
  | Zpos p => S754_finite false p 0
  | Zneg p => S754_finite true p 0
  end.

(** [a / b] on two integers (true division): the exact quotient,
    rounded once to the nearest binary64 (ties to even);
    [ZeroDivisionError] for [b = 0], [OverflowError] when the rounded
    quotient is not finite. *)
Definition int_true_divide (a b : Z) : outcome float :=
  if b =? 0 then Raise ZeroDivisionError
  else
    match SFdiv prec emax (int_operand a) (int_operand b) with
    | S754_infinity _ => Raise OverflowError
    | q => Return q
    end.

(** [x * y] on two floats. *)
Definition float_mul (x y : float) : float := SFmul prec emax x y.

(** [x < y] on two floats. *)
Definition float_lt (x y : float) : bool := SFltb x y.

(** The literals [2.0] and [4.0]. *)
Definition float_2_0 : float := S754_finite false 4503599627370496 (-51).
Definition float_4_0 : float := S754_finite false 4503599627370496 (-50).

(** The real number a float denotes (0 for infinities and NaN, which
    the results below never are). *)
Definition to_R (x : float) : R :=
  match x with
  | S754_finite s m e => (IZR (cond_Zopp s (Zpos m)) * powerRZ 2 e)%R
  | _ => 0%R
  end.

End Py.

Import Py.

(** ** The function [w_pi] *)

(** The two accumulators of the loop. *)
Record locals : Type := { num : Z; den : Z }.

(** State on entry of the loop: [num = 1], [den = 1]. *)
Definition init : locals := {| num := 1; den := 1 |}.

(** One pass through the loop body for the index [i]. *)
Definition body (st : locals) (i : Z) : locals :=
  let tmp := 4 * i * i in
  {| num := num st * tmp; den := den st * (tmp - 1) |}.

(** The accumulators after the first [k] passes of
    [for i in range(1,n+1)]. *)
Definition loop_prefix (n : Z) (k : nat) : locals :=
  fold_left body (firstn k (range 1 (n + 1))) init.

(** The accumulators when the loop ends. *)
Definition loop (n : Z) : locals :=
  fold_left body (range 1 (n + 1)) init.

(** [return 2.0*(num/den)]: the division may raise; the product of two
    floats does not. *)
Definition w_pi_return (st : locals) : outcome float :=
  match int_true_divide (num st) (den st) with
  | Raise e => Raise e
  | Return q => Return (float_mul float_2_0 q)
  end.

(** [w_pi(n)] for an integer argument [n]. *)
Definition w_pi (n : Z) : outcome float := w_pi_return (loop n).

(** ** What the specification computes *)

Module Spec.

(** Product of [f i] for [i] from 1 to [k]. *)
Fixpoint product (f : Z -> Z) (k : nat) : Z :=
  match k with
  | O => 1
  | S j => product f j * f (Z.of_nat (S j))
  end.

(** Numerator: product of [4*i*i]; denominator: product of
    [4*i*i - 1]. *)
Definition numerator (k : nat) : Z := product (fun i => 4 * i * i) k.
Definition denominator (k : nat) : Z := product (fun i => 4 * i * i - 1) k.

(** The exact value of the partial product, [2 * N / D]. *)
Definition exact (k : nat) : R :=
  (2 * (IZR (numerator k) / IZR (denominator k)))%R.

End Spec.

(** ** Quantities the statements below speak about *)


(** A call fails: it raises some exception. *)
Definition raises {A : Type} (r : outcome A) : Prop :=
  exists e, r = Raise e.

(** The test [2.0 < x < 4.0] on the result of a call. *)
Definition strictly_between_2_and_4 (r : outcome float) : bool :=
  match r with
  | Return x => float_lt float_2_0 x && float_lt x float_4_0
  | Raise _ => false
  end.

(** ** Auxiliary notions for the proofs *)

(** What a rounding location says about the remainder [r] of a division
    by [b]: where the exact quotient lies between two consecutive
    integers. *)
Definition loc_spec (b r : Z) (l : location) : Prop :=
  match l with
  | loc_Exact => r = 0
  | loc_Inexact Lt => 0 < 2 * r < b
  | loc_Inexact Eq => 0 < r /\ 2 * r = b
  | loc_Inexact Gt => b < 2 * r
  end.

(** The antiderivative of [sin ^ k] that vanishes at 0, by the reduction
    formula of integration by parts. *)
Fixpoint sin_pow_integral (k : nat) : R -> R :=
  match k with
  | O => fun x => x
  | S O => fun x => (1 - cos x)%R
  | S (S j as k1) =>
      fun x => ((INR k1 * sin_pow_integral j x - sin x ^ k1 * cos x) / INR (S k1))%R
  end.

(** The Wallis integrals: [wallis_integral k] is the integral of
    [sin ^ k] over [[0, PI/2]]. *)
Definition wallis_integral (k : nat) : R := sin_pow_integral k (PI / 2).

(** Fixed-point enclosure of [N(k) / D(k)], 120 fractional bits: the
    quotient lies between [lo / 2^120] and [hi / 2^120].  It is computed
    with numbers of bounded size, where the products themselves have
    thousands of digits. *)
Fixpoint bracket (k : nat) : Z * Z :=
  match k with
  | O => (2 ^ 120, 2 ^ 120)
  | S j =>
      let t := 4 * Z.of_nat (S j) * Z.of_nat (S j) in
      let '(lo, hi) := bracket j in
      (lo * t / (t - 1), hi * t / (t - 1) + 1)
  end.

(** ** The plotting cell

    The fragment of NumPy on float64 that the cell uses.  The sample
    points are NumPy integers; [w_pi] uses its argument only in
    [range(1,n+1)], which yields Python integers, so the body computes
    as above. *)

Module Np.


(** Elementwise [x - y], [x + y], [x * y], [x / y] and [abs(x)] on
    float64. *)
Definition float_sub (x y : float) : float := SFsub prec emax x y.
Definition float_abs (x : float) : float := SFabs x.

(** [np.pi] (and [math.pi]): the float [0x1.921fb54442d18p+1]. *)
Definition pi : float := S754_finite false 7074237752028440 (-51).



End Np.

(** [abs(w - np.pi)]: one element of [diff]. *)
Definition abs_diff (w : float) : float := Np.float_abs (Np.float_sub w Np.pi).

(** The float [0.0]: a logarithmic axis shows only what lies above it. *)
Definition float_0_0 : float := S754_zero false.






(* ================================================================= *)
(** * Part II: the integer accumulation *)

(** Facts about [range]. *)
Lemma range_length (a b : Z) : length (range a b) = Z.to_nat (b - a).
Proof. unfold range. now rewrite length_map, length_seq. Qed.

Lemma range_empty (a b : Z) : b <= a -> range a b = [].
Proof.
  intros H. unfold range.
  replace (Z.to_nat (b - a)) with 0%nat by lia. reflexivity.
Qed.

Lemma range_In (a b i : Z) : In i (range a b) <-> a <= i < b.
Proof.
  unfold range. rewrite in_map_iff. split.
  - intros (k & <- & Hk). apply in_seq in Hk. lia.
  - intros H. exists (Z.to_nat (i - a)). split; [lia|].
    apply in_seq. lia.
Qed.

(** A prefix of a range is a range. *)
Lemma firstn_seq_min (k s len : nat) :
  firstn k (seq s len) = seq s (Nat.min k len).
Proof.
  revert s len. induction k as [|k IH]; intros s [|len]; cbn; try reflexivity.
  now rewrite IH.
Qed.

Lemma firstn_range (a b : Z) (k : nat) :
  (k <= Z.to_nat (b - a))%nat ->
  firstn k (range a b) = range a (a + Z.of_nat k).
Proof.
  intros H. unfold range.
  rewrite firstn_map, firstn_seq_min.
  replace (Nat.min k (Z.to_nat (b - a))) with k by lia.
  replace (Z.to_nat (a + Z.of_nat k - a)) with k by lia.
  reflexivity.
Qed.

(** The last index of a non-empty range. *)
Lemma range_snoc (a : Z) (k : nat) :
  range a (a + Z.of_nat (S k)) = range a (a + Z.of_nat k) ++ [a + Z.of_nat k].
Proof.
  unfold range.
  replace (Z.to_nat (a + Z.of_nat (S k) - a)) with (S k) by lia.
  replace (Z.to_nat (a + Z.of_nat k - a)) with k by lia.
  rewrite seq_S, map_app. reflexivity.
Qed.

(** The loop run over [1..k] leaves the two products in the
    accumulators. *)
Lemma fold_body_range (k : nat) :
  fold_left body (range 1 (1 + Z.of_nat k)) init =
  {| num := Spec.numerator k; den := Spec.denominator k |}.
Proof.
  induction k as [|k IH].
  - reflexivity.
  - rewrite range_snoc, fold_left_app, IH. cbn [fold_left].
    unfold body, Spec.numerator, Spec.denominator. cbn [num den Spec.product].
    replace (Z.of_nat (S k)) with (1 + Z.of_nat k) by lia. reflexivity.
Qed.

(** After [k] passes of a loop with at least [k] indices. *)
Lemma loop_prefix_products (n : Z) (k : nat) :
  Z.of_nat k <= n ->
  loop_prefix n k =
  {| num := Spec.numerator k; den := Spec.denominator k |}.
Proof.
  intros H. unfold loop_prefix.
  rewrite firstn_range by lia. apply fold_body_range.
Qed.

(** At the end of the loop, for every integer [n]. *)
Lemma loop_products (n : Z) :
  loop n =
  {| num := Spec.numerator (Z.to_nat n); den := Spec.denominator (Z.to_nat n) |}.
Proof.
  unfold loop. rewrite <- fold_body_range.
  destruct (Z.le_gt_cases 0 n) as [H|H].
  - now rewrite Z2Nat.id, (Z.add_comm 1 n).
  - rewrite (range_empty 1 (n + 1)) by lia.
    replace (Z.to_nat n) with 0%nat by lia. reflexivity.
Qed.

(** The prefix of [n] passes is the whole loop. *)
Lemma loop_prefix_all (n : Z) : loop_prefix n (Z.to_nat n) = loop n.
Proof.
  unfold loop_prefix, loop.
  destruct (Z.le_gt_cases 0 n) as [H|H].
  - rewrite firstn_all2; [reflexivity|]. rewrite range_length. lia.
  - rewrite (range_empty 1 (n + 1)) by lia. now rewrite firstn_nil.
Qed.

(** A negative [n] gives an empty range: no pass. *)
Lemma loop_negative (n : Z) : n < 0 -> loop n = init.
Proof.
  intros H. unfold loop. now rewrite range_empty by lia.
Qed.

(** The numerator is the product of the squares [(2*i)^2], the
    denominator the product of [(2*i)^2 - 1]. *)
Lemma product_ext (f g : Z -> Z) (k : nat) :
  (forall i, f i = g i) -> Spec.product f k = Spec.product g k.
Proof.
  intros H. induction k as [|k IH]; [reflexivity|].
  cbn [Spec.product]. now rewrite IH, H.
Qed.

Lemma numerator_squares (k : nat) :
  Spec.numerator k = Spec.product (fun i => (2 * i) ^ 2) k
  /\ Spec.denominator k = Spec.product (fun i => (2 * i) ^ 2 - 1) k.
Proof.
  split; apply product_ext; intros i; ring.
Qed.

(** Every factor is positive, so both products are. *)
Lemma numerator_pos (k : nat) : 1 <= Spec.numerator k.
Proof.
  induction k as [|k IH]; [cbn; lia|].
  unfold Spec.numerator in *. cbn [Spec.product]. nia.
Qed.

Lemma denominator_pos (k : nat) : 1 <= Spec.denominator k.
Proof.
  induction k as [|k IH]; [cbn; lia|].
  unfold Spec.denominator in *. cbn [Spec.product]. nia.
Qed.

(* ================================================================= *)
(** * Part III: the final division and the doubling *)

(** ** The division at work

    The model agrees with the hardware division of the Standard
    Library's primitive floats where the operands are small enough to be
    floats themselves, and follows the runtime beyond that: operands of
    any size, one rounding, an error where the quotient is out of
    range. *)

Example int_true_divide_1_3 :
  int_true_divide 1 3 = Return (Prim2SF (1 / 3)%float).
Proof. vm_compute. reflexivity. Qed.

Example int_true_divide_4_3 :
  int_true_divide 4 3 = Return (Prim2SF (4 / 3)%float).
Proof. vm_compute. reflexivity. Qed.

Example int_true_divide_neg :
  int_true_divide (-22) 7 = Return (Prim2SF (-22 / 7)%float).
Proof. vm_compute. reflexivity. Qed.

Example int_true_divide_huge_operands :
  int_true_divide (10 ^ 400) (3 * 10 ^ 399) = Return (Prim2SF (10 / 3)%float).
Proof. vm_compute. reflexivity. Qed.

Example int_true_divide_overflow :
  int_true_divide (10 ^ 400) 3 = Raise OverflowError.
Proof. vm_compute. reflexivity. Qed.

Example int_true_divide_by_zero :
  int_true_divide 5 0 = Raise ZeroDivisionError.
Proof. reflexivity. Qed.

Example int_true_divide_zero_by_negative :
  int_true_divide 0 (-5) = Return (S754_zero true).
Proof. reflexivity. Qed.

Example float_mul_2_0_example :
  float_mul float_2_0 (Prim2SF (4 / 3)%float) = Prim2SF (2 * (4 / 3))%float.
Proof. vm_compute. reflexivity. Qed.

(** ** Number of binary digits *)

(** [digits2_pos p] is the number [d] of binary digits of [p]:
    [2^(d-1) <= p < 2^d]. *)
Lemma digits2_pos_bounds (p : positive) :
  2 ^ (Zpos (digits2_pos p) - 1) <= Zpos p < 2 ^ Zpos (digits2_pos p).
Proof.
  induction p as [p IH|p IH|]; cbn [digits2_pos].
  - rewrite Pos2Z.inj_succ.
    replace (Z.succ (Zpos (digits2_pos p)) - 1) with (Z.succ (Zpos (digits2_pos p) - 1)) by lia.
    rewrite !Z.pow_succ_r by lia. lia.
  - rewrite Pos2Z.inj_succ.
    replace (Z.succ (Zpos (digits2_pos p)) - 1) with (Z.succ (Zpos (digits2_pos p) - 1)) by lia.
    rewrite !Z.pow_succ_r by lia. lia.
  - cbn. lia.
Qed.

Lemma digits2_pos_unique (p : positive) (d : Z) :
  2 ^ (d - 1) <= Zpos p < 2 ^ d -> Zpos (digits2_pos p) = d.
Proof.
  intros [Hlo Hhi]. pose proof (digits2_pos_bounds p) as [Blo Bhi].
  set (c := Zpos (digits2_pos p)) in *.
  assert (0 < c) by (subst c; lia).
  assert (0 < d).
  { destruct (Z.lt_trichotomy d 0) as [Hd|[Hd|Hd]]; [|subst d; cbn in Hhi; lia|lia].
    rewrite Z.pow_neg_r in Hhi by lia. lia. }
  destruct (Z.lt_trichotomy c d) as [Hc|[Hc|Hc]]; [|assumption|].
  - assert (2 ^ c <= 2 ^ (d - 1)) by (apply Z.pow_le_mono_r; lia). lia.
  - assert (2 ^ d <= 2 ^ (c - 1)) by (apply Z.pow_le_mono_r; lia). lia.
Qed.

(** A 53-digit mantissa at exponent [-52] is in canonical form: the
    rounding shifts nothing out. *)
Lemma shr_fexp_53 (m : positive) (l : location) :
  2 ^ 52 <= Zpos m < 2 ^ 53 ->
  shr_fexp prec emax (Zpos m) (-52) l = (shr_record_of_loc (Zpos m) l, -52).
Proof.
  intros H. unfold shr_fexp. cbn [Zdigits2].
  rewrite (digits2_pos_unique m 53) by (cbn; lia). reflexivity.
Qed.

(** A 54-digit mantissa at exponent [-53] loses one digit. *)
Lemma shr_fexp_54 (m : positive) (l : location) :
  2 ^ 53 <= Zpos m < 2 ^ 54 ->
  shr_fexp prec emax (Zpos m) (-53) l = (shr_1 (shr_record_of_loc (Zpos m) l), -52).
Proof.
  intros H. unfold shr_fexp. cbn [Zdigits2].
  rewrite (digits2_pos_unique m 54) by (cbn; lia). reflexivity.
Qed.

(** Round trips between shift records and locations. *)
Lemma shr_m_of_loc m l : shr_m (shr_record_of_loc m l) = m.
Proof. now destruct l as [|[]]. Qed.

Lemma loc_of_shr_of_loc m l : loc_of_shr_record (shr_record_of_loc m l) = l.
Proof. now destruct l as [|[]]. Qed.

(** The location computed by the division describes its remainder. *)
Lemma new_location_spec (b r : Z) :
  0 < b -> 0 <= r < b -> loc_spec b r (new_location b r).
Proof.
  intros Hb Hr. unfold new_location, new_location_even, new_location_odd.
  destruct (Z.even b) eqn:Eb.
  - destruct (Z.eqb_spec r 0) as [->|Hn]; [reflexivity|].
    destruct (Z.compare_spec (2 * r) b); cbn [loc_spec]; lia.
  - destruct (Z.eqb_spec r 0) as [->|Hn]; [reflexivity|].
    assert (Ob : Z.odd b = true) by (rewrite <- Z.negb_even, Eb; reflexivity).
    apply Z.odd_spec in Ob. destruct Ob as [c Hc].
    destruct (Z.compare_spec (2 * r + 1) b); cbn [loc_spec]; lia.
Qed.

(** Rounding a 53-digit quotient at exponent [-52] picks one of its two
    neighbours. *)
Lemma round_53 (q : positive) (l : location) :
  2 ^ 52 <= Zpos q < 2 ^ 53 ->
  round_nearest_even (Zpos q) l < 2 ^ 53 ->
  exists m, binary_round_aux prec emax false (Zpos q) (-52) l = S754_finite false m (-52)
            /\ Zpos m = round_nearest_even (Zpos q) l.
Proof.
  intros Hq Hm. unfold binary_round_aux.
  rewrite shr_fexp_53 by assumption.
  rewrite shr_m_of_loc, loc_of_shr_of_loc.
  assert (Hge : Zpos q <= round_nearest_even (Zpos q) l).
  { unfold round_nearest_even. destruct l as [|[]]; try lia. destruct (Z.even _); lia. }
  destruct (round_nearest_even (Zpos q) l) as [|m|m] eqn:E; try lia.
  rewrite shr_fexp_53 by lia. cbn. eauto.
Qed.

(** ... and the one picked is nearest to the exact quotient
    [(b * q + r) / b]. *)
Lemma round_53_nearest (q : positive) (l : location) (b r : Z) :
  2 ^ 52 <= Zpos q < 2 ^ 53 ->
  0 <= r < b -> loc_spec b r l ->
  2 * (b * Zpos q + r) < (2 ^ 54 - 1) * b ->
  exists m, binary_round_aux prec emax false (Zpos q) (-52) l = S754_finite false m (-52)
            /\ 2 ^ 52 <= Zpos m < 2 ^ 53
            /\ Z.abs (2 * (b * Zpos q + r) - 2 * Zpos m * b) <= b.
Proof.
  intros Hq Hr Hl Hlt.
  assert (Hm : round_nearest_even (Zpos q) l < 2 ^ 53 /\
               Zpos q <= round_nearest_even (Zpos q) l /\
               Z.abs (2 * (b * Zpos q + r) - 2 * round_nearest_even (Zpos q) l * b) <= b).
  { unfold round_nearest_even.
    destruct l as [|[]]; cbn [loc_spec] in Hl; try destruct (Z.even (Zpos q)); nia. }
  destruct Hm as (Hm1 & Hm2 & Hm3).
  destruct (round_53 q l Hq Hm1) as (m & E & Em).
  exists m. rewrite Em. repeat split; try assumption; lia.
Qed.

(** Last step of the rounding when the mantissa has 53 digits. *)
Lemma finish_53 (m : positive) :
  2 ^ 52 <= Zpos m < 2 ^ 53 ->
  (let '(mrs, e) := shr_fexp prec emax (Zpos m) (-52) loc_Exact in
   match shr_m mrs with
   | Z0 => S754_zero false
   | Zpos m' => if e <=? emax - prec then S754_finite false m' e else S754_infinity false
   | Zneg _ => S754_nan
   end) = S754_finite false m (-52).
Proof. intros H. rewrite shr_fexp_53 by assumption. reflexivity. Qed.

(** Rounding a 54-digit quotient at exponent [-53]: the low digit is
    shifted out and decides, with the remainder, the direction. *)
Lemma round_54_nearest (q : positive) (l : location) (b r : Z) :
  2 ^ 53 <= Zpos q < 2 ^ 54 - 1 ->
  0 <= r < b -> loc_spec b r l ->
  exists m, binary_round_aux prec emax false (Zpos q) (-53) l = S754_finite false m (-52)
            /\ 2 ^ 52 <= Zpos m < 2 ^ 53
            /\ Z.abs (b * Zpos q + r - 2 * Zpos m * b) <= b.
Proof.
  intros Hq Hr Hl. unfold binary_round_aux.
  rewrite shr_fexp_54 by lia.
  destruct q as [p|p|]; [| |cbn in Hq; lia].
  - (* odd quotient: the bit shifted out is 1 *)
    assert (Hp : 2 ^ 52 <= Zpos p < 2 ^ 53 - 1) by lia.
    assert (Hs : Zpos p + 1 = Zpos (p + 1)) by lia.
    destruct l as [|[]]; cbn [loc_spec] in Hl;
      cbn [shr_record_of_loc shr_1 orb shr_m loc_of_shr_record round_nearest_even];
      try destruct (Z.even (Zpos p));
      try rewrite Hs;
      rewrite finish_53 by lia;
      eexists; (split; [reflexivity|]); lia.
  - (* even quotient: the bit shifted out is 0 *)
    assert (Hp : 2 ^ 52 <= Zpos p < 2 ^ 53) by lia.
    destruct l as [|[]]; cbn [loc_spec] in Hl;
      cbn [shr_record_of_loc shr_1 orb shr_m loc_of_shr_record round_nearest_even];
      rewrite finish_53 by lia;
      eexists; (split; [reflexivity|]); lia.
Qed.

(** The division of two positive integers with quotient in [[1, 2)]:
    the result is [m * 2^-52] with [m] the integer nearest to
    [2^52 * a / b]. *)
Lemma int_true_divide_nearest (a b : Z) :
  0 < b <= a -> 2 ^ 53 * a < (2 ^ 54 - 1) * b ->
  exists m, int_true_divide a b = Return (S754_finite false m (-52))
            /\ 2 ^ 52 <= Zpos m < 2 ^ 53
            /\ Z.abs (2 ^ 53 * a - 2 * Zpos m * b) <= b.
Proof.
  intros Hab Hlt.
  destruct a as [|pa|pa]; try lia. destruct b as [|pb|pb]; try lia.
  unfold int_true_divide, int_operand, SFdiv, SFdiv_core_binary.
  cbn [Z.eqb xorb Zdigits2].
  pose proof (digits2_pos_bounds pa) as Ba.
  pose proof (digits2_pos_bounds pb) as Bb.
  set (d1 := Zpos (digits2_pos pa)) in *.
  set (d2 := Zpos (digits2_pos pb)) in *.
  assert (Hd : d1 = d2 \/ d1 = d2 + 1).
  { assert (d2 - 1 < d1) by (apply (Z.pow_lt_mono_r_iff 2); lia).
    assert (d1 - 1 < d2 + 1).
    { apply (Z.pow_lt_mono_r_iff 2); try lia.
      rewrite Z.pow_add_r by lia. lia. }
    lia. }
  destruct Hd as [Hd|Hd].
  - replace (d1 + 0 - (d2 + 0)) with 0 by lia.
    change (Z.min (fexp prec emax 0) (0 - 0)) with (-53).
    change (0 - 0 - -53) with 53. cbv iota.
    rewrite Z.shiftl_mul_pow2 by lia.
    pose proof (Z_div_mod (Zpos pa * 2 ^ 53) (Zpos pb) eq_refl) as Hdiv.
    destruct (Z.div_eucl (Zpos pa * 2 ^ 53) (Zpos pb)) as [q r].
    destruct Hdiv as [Hdiv Hr].
    assert (Hq : 2 ^ 53 <= q < 2 ^ 54 - 1) by nia.
    destruct q as [|q|q]; try lia.
    destruct (round_54_nearest q (new_location (Zpos pb) r) (Zpos pb) r Hq)
      as (m & E & Hm & Hn); [lia|apply new_location_spec; lia|].
    exists m. rewrite E. repeat split; try lia.
  - replace (d1 + 0 - (d2 + 0)) with 1 by lia.
    change (Z.min (fexp prec emax 1) (0 - 0)) with (-52).
    change (0 - 0 - -52) with 52. cbv iota.
    rewrite Z.shiftl_mul_pow2 by lia.
    pose proof (Z_div_mod (Zpos pa * 2 ^ 52) (Zpos pb) eq_refl) as Hdiv.
    destruct (Z.div_eucl (Zpos pa * 2 ^ 52) (Zpos pb)) as [q r].
    destruct Hdiv as [Hdiv Hr].
    assert (Hq : 2 ^ 52 <= q < 2 ^ 53) by nia.
    destruct q as [|q|q]; try lia.
    destruct (round_53_nearest q (new_location (Zpos pb) r) (Zpos pb) r Hq)
      as (m & E & Hm & Hn); [lia|apply new_location_spec; lia|lia|].
    exists m. rewrite E. repeat split; try lia.
Qed.

(** Canonical form at any exponent in range. *)
Lemma shr_fexp_canonical (m : positive) (e : Z) (l : location) :
  2 ^ 52 <= Zpos m < 2 ^ 53 -> -1074 <= e ->
  shr_fexp prec emax (Zpos m) e l = (shr_record_of_loc (Zpos m) l, e).
Proof.
  intros H He. unfold shr_fexp. cbn [Zdigits2].
  rewrite (digits2_pos_unique m 53) by (cbn; lia).
  replace (fexp prec emax (53 + e) - e) with 0; [reflexivity|].
  unfold fexp, emin, prec, emax. lia.
Qed.

(** Multiplying a float of [[1, 2)] by [2.0] moves the exponent and
    keeps the mantissa: no rounding. *)
Lemma float_mul_2_0 (m : positive) :
  2 ^ 52 <= Zpos m < 2 ^ 53 ->
  float_mul float_2_0 (S754_finite false m (-52)) = S754_finite false m (-51).
Proof.
  intros H. unfold float_mul, float_2_0, SFmul, binary_round_aux.
  assert (E : shr_fexp prec emax (Zpos (Pos.mul 4503599627370496 m)) (-51 + -52) loc_Exact
              = ({| shr_m := Zpos m; shr_r := false; shr_s := false |}, -51)).
  { unfold shr_fexp. cbn [Zdigits2].
    rewrite (digits2_pos_unique (4503599627370496 * m) 105)
      by (rewrite Pos2Z.inj_mul; change (2 ^ (105 - 1)) with (2 ^ 52 * 2 ^ 52);
          change (2 ^ 105) with (2 ^ 52 * 2 ^ 53); change (Zpos 4503599627370496) with (2 ^ 52); lia).
    reflexivity. }
  rewrite E. cbn [shr_m loc_of_shr_record round_nearest_even].
  rewrite shr_fexp_canonical by lia. reflexivity.
Qed.

(** ** Bounds on the two products *)

(** One more factor. *)
Lemma numerator_S (k : nat) :
  Spec.numerator (S k) = Spec.numerator k * (4 * (Z.of_nat k + 1) * (Z.of_nat k + 1)).
Proof.
  unfold Spec.numerator. cbn [Spec.product].
  replace (Z.of_nat (S k)) with (Z.of_nat k + 1) by lia. reflexivity.
Qed.

Lemma denominator_S (k : nat) :
  Spec.denominator (S k) =
  Spec.denominator k * ((2 * Z.of_nat k + 1) * (2 * Z.of_nat k + 3)).
Proof.
  unfold Spec.denominator. cbn [Spec.product].
  replace (Z.of_nat (S k)) with (Z.of_nat k + 1) by lia. f_equal. ring.
Qed.

(** [N(k+1) / D(k+1)] is above [N(k) / D(k)]. *)
Lemma ratio_increasing (k : nat) :
  Spec.numerator k * Spec.denominator (S k) <
  Spec.numerator (S k) * Spec.denominator k.
Proof.
  rewrite numerator_S, denominator_S.
  pose proof (numerator_pos k). pose proof (denominator_pos k).
  set (N := Spec.numerator k) in *. set (D := Spec.denominator k) in *.
  set (x := Z.of_nat k). assert (0 <= x) by (subst x; lia).
  assert (0 < N * D) by nia.
  replace (N * (4 * (x + 1) * (x + 1)) * D) with (N * D * (4 * (x + 1) * (x + 1))) by ring.
  replace (N * (D * ((2 * x + 1) * (2 * x + 3)))) with (N * D * ((2 * x + 1) * (2 * x + 3))) by ring.
  apply Z.mul_lt_mono_pos_l; lia.
Qed.

(** From the first factor on, [N / D >= 4/3]. *)
Lemma ratio_lower (k : nat) :
  (1 <= k)%nat -> 4 * Spec.denominator k <= 3 * Spec.numerator k.
Proof.
  induction k as [|k IH]; [lia|]. intros _.
  destruct k as [|k]; [cbn; lia|].
  specialize (IH ltac:(lia)).
  pose proof (ratio_increasing (S k)) as Hinc.
  pose proof (numerator_pos (S k)). pose proof (denominator_pos (S k)).
  pose proof (numerator_pos (S (S k))). pose proof (denominator_pos (S (S k))).
  nia.
Qed.

(** [N(k) / D(k) * (2k+1) / (2k)] decreases; from [k = 2] on it is at
    most [16/9]. *)
Lemma ratio_upper_aux (k : nat) :
  (2 <= k)%nat ->
  9 * Spec.numerator k * (2 * Z.of_nat k + 1) <= 32 * Z.of_nat k * Spec.denominator k.
Proof.
  induction k as [|k IH]; [lia|]. intros Hk.
  destruct (Nat.eq_dec k 1) as [->|Hne]; [cbn; lia|].
  specialize (IH ltac:(lia)).
  rewrite numerator_S, denominator_S.
  pose proof (numerator_pos k). pose proof (denominator_pos k).
  set (N := Spec.numerator k) in *. set (D := Spec.denominator k) in *.
  replace (Z.of_nat (S k)) with (Z.of_nat k + 1) by lia.
  set (x := Z.of_nat k) in *. assert (2 <= x) by (subst x; lia).
  assert (Hstep : 9 * N * (x + 1) <= 8 * D * (2 * x + 1)).
  { apply (Z.mul_le_mono_pos_r _ _ (2 * x + 1)); [lia|]. nia. }
  replace (9 * (N * (4 * (x + 1) * (x + 1))) * (2 * (x + 1) + 1))
    with (9 * N * (x + 1) * (4 * (x + 1) * (2 * x + 3))) by ring.
  replace (32 * (x + 1) * (D * ((2 * x + 1) * (2 * x + 3))))
    with (8 * D * (2 * x + 1) * (4 * (x + 1) * (2 * x + 3))) by ring.
  apply Z.mul_le_mono_nonneg_r; [nia|assumption].
Qed.

Lemma ratio_upper (k : nat) :
  9 * Spec.numerator k <= 16 * Spec.denominator k.
Proof.
  destruct k as [|[|k]]; [cbn; lia|cbn; lia|].
  pose proof (ratio_upper_aux (S (S k)) ltac:(lia)) as H.
  pose proof (numerator_pos (S (S k))). pose proof (denominator_pos (S (S k))).
  set (N := Spec.numerator _) in *. set (D := Spec.denominator _) in *.
  set (x := Z.of_nat _) in *. assert (2 <= x) by (subst x; lia).
  nia.
Qed.

(** ** The value returned *)

(** The call in terms of the two products. *)
Lemma w_pi_unfold (n : Z) :
  w_pi n =
  w_pi_return {| num := Spec.numerator (Z.to_nat n);
                 den := Spec.denominator (Z.to_nat n) |}.
Proof. unfold w_pi. now rewrite loop_products. Qed.

(** Without any factor the result is [2.0 * (1 / 1)]. *)
Lemma w_pi_nonpositive (n : Z) : n <= 0 -> w_pi n = Return float_2_0.
Proof.
  intros H. rewrite w_pi_unfold.
  replace (Z.to_nat n) with 0%nat by lia. reflexivity.
Qed.

(** With at least one factor: the float returned has exponent [-51]
    and a mantissa [m] strictly inside [(2^52, 2^53)], and [m] is nearest
    to [2^52 * N / D]. *)
Lemma w_pi_positive (n : Z) :
  1 <= n ->
  exists q m,
    int_true_divide (Spec.numerator (Z.to_nat n)) (Spec.denominator (Z.to_nat n))
      = Return q
    /\ q = S754_finite false m (-52)
    /\ w_pi n = Return (S754_finite false m (-51))
    /\ 2 ^ 52 < Zpos m < 2 ^ 53
    /\ Z.abs (2 ^ 53 * Spec.numerator (Z.to_nat n)
              - 2 * Zpos m * Spec.denominator (Z.to_nat n))
       <= Spec.denominator (Z.to_nat n).
Proof.
  intros Hn. rewrite w_pi_unfold. unfold w_pi_return. cbn [num den].
  set (k := Z.to_nat n). assert (Hk : (1 <= k)%nat) by (subst k; lia).
  pose proof (ratio_lower k Hk) as Hlo. pose proof (ratio_upper k) as Hup.
  pose proof (denominator_pos k) as HD.
  set (N := Spec.numerator k) in *. set (D := Spec.denominator k) in *.
  destruct (int_true_divide_nearest N D) as (m & E & Hm & Hnear); [lia|lia|].
  exists (S754_finite false m (-52)), m. rewrite E.
  rewrite float_mul_2_0 by assumption.
  assert (Hgt : 2 ^ 52 < Zpos m).
  { apply Z.abs_le in Hnear. destruct (Z.lt_ge_cases (2 ^ 52) (Zpos m)) as [|Hle]; [assumption|].
    assert (2 * Zpos m * D <= 2 * 2 ^ 52 * D) by (apply Z.mul_le_mono_nonneg_r; lia).
    lia. }
  repeat split; try assumption; lia.
Qed.

(** ** Certifying a returned float without computing the products *)

(** The enclosure is sound. *)
Lemma bracket_sound (k : nat) :
  0 <= fst (bracket k)
  /\ fst (bracket k) * Spec.denominator k <= 2 ^ 120 * Spec.numerator k
  /\ 2 ^ 120 * Spec.numerator k <= snd (bracket k) * Spec.denominator k.
Proof.
  induction k as [|k (IH0 & IH1 & IH2)].
  - cbn. lia.
  - cbn [bracket]. destruct (bracket k) as [lo hi]. cbn [fst snd] in *.
    rewrite numerator_S, denominator_S.
    replace (Z.of_nat (S k)) with (Z.of_nat k + 1) by lia.
    pose proof (numerator_pos k) as HN. pose proof (denominator_pos k) as HD.
    set (N := Spec.numerator k) in *. set (D := Spec.denominator k) in *.
    set (x := Z.of_nat k). assert (Hx : 0 <= x) by (subst x; lia).
    set (t := 4 * (x + 1) * (x + 1)).
    assert (Ht : 4 <= t) by (subst t; nia).
    replace ((2 * x + 1) * (2 * x + 3)) with (t - 1) by (subst t; ring).
    replace (4 * (x + 1) * (x + 1)) with t by reflexivity.
    pose proof (Z.mul_div_le (lo * t) (t - 1) ltac:(lia)) as Hlo.
    pose proof (Z.mul_succ_div_gt (hi * t) (t - 1) ltac:(lia)) as Hhi.
    assert (0 <= lo * t / (t - 1)) by (apply Z.div_pos; nia).
    set (lo' := lo * t / (t - 1)) in *. set (hi' := hi * t / (t - 1)) in *.
    split; [assumption|]. split.
    + replace (lo' * (D * (t - 1))) with ((t - 1) * lo' * D) by ring.
      replace (2 ^ 120 * (N * t)) with (2 ^ 120 * N * t) by ring.
      apply Z.le_trans with (lo * t * D); [apply Z.mul_le_mono_nonneg_r; lia|].
      replace (lo * t * D) with (lo * D * t) by ring.
      apply Z.mul_le_mono_nonneg_r; lia.
    + replace ((hi' + 1) * (D * (t - 1))) with ((t - 1) * Z.succ hi' * D) by ring.
      replace (2 ^ 120 * (N * t)) with (2 ^ 120 * N * t) by ring.
      apply Z.le_trans with (hi * t * D); [|apply Z.mul_le_mono_nonneg_r; lia].
      replace (hi * t * D) with (hi * D * t) by ring.
      apply Z.mul_le_mono_nonneg_r; lia.
Qed.

(** If the enclosure leaves only the mantissa [m], [m] is returned. *)
Lemma w_pi_from_bracket (n : Z) (m : positive) :
  1 <= n ->
  (2 * Zpos m - 1) * 2 ^ 120 < 2 ^ 53 * fst (bracket (Z.to_nat n)) ->
  2 ^ 53 * snd (bracket (Z.to_nat n)) < (2 * Zpos m + 1) * 2 ^ 120 ->
  w_pi n = Return (S754_finite false m (-51)).
Proof.
  intros Hn Hlo Hhi.
  destruct (w_pi_positive n Hn) as (q & m' & _ & _ & E & _ & Hnear).
  destruct (bracket_sound (Z.to_nat n)) as (B0 & B1 & B2).
  pose proof (denominator_pos (Z.to_nat n)) as HD.
  set (N := Spec.numerator _) in *. set (D := Spec.denominator _) in *.
  set (lo := fst _) in *. set (hi := snd _) in *.
  apply Z.abs_le in Hnear.
  assert (H1 : (2 * Zpos m - 1) * D < 2 ^ 53 * N).
  { apply (Z.mul_lt_mono_pos_l (2 ^ 120)); [lia|].
    apply Z.lt_le_trans with (2 ^ 53 * lo * D); [|nia].
    replace (2 ^ 120 * ((2 * Z.pos m - 1) * D)) with ((2 * Z.pos m - 1) * 2 ^ 120 * D) by ring.
    apply Z.mul_lt_mono_pos_r; lia. }
  assert (H2 : 2 ^ 53 * N < (2 * Zpos m + 1) * D).
  { apply (Z.mul_lt_mono_pos_l (2 ^ 120)); [lia|].
    apply Z.le_lt_trans with (2 ^ 53 * hi * D); [nia|].
    replace (2 ^ 120 * ((2 * Z.pos m + 1) * D)) with ((2 * Z.pos m + 1) * 2 ^ 120 * D) by ring.
    apply Z.mul_lt_mono_pos_r; lia. }
  assert (Zpos m' = Zpos m) by nia.
  rewrite E. congruence.
Qed.

(** The value at [n = 1000], certified through the enclosure. *)
Lemma w_pi_1000 : w_pi 1000 = Return (S754_finite false 7072470297332426 (-51)).
Proof. apply w_pi_from_bracket; [lia| |]; vm_compute; reflexivity. Qed.

(* ================================================================= *)
(** * Part IV: the partial products and pi *)

Section RealAnalysis.

#[local] Open Scope R_scope.

(** Induction in steps of two, the shape of the reduction formula. *)
Lemma nat_ind_by_2 (P : nat -> Prop) :
  P 0%nat -> P 1%nat -> (forall k, P k -> P (S (S k))) -> forall k, P k.
Proof.
  intros H0 H1 HS k.
  assert (H : P k /\ P (S k)).
  { induction k as [|k [IHk IHSk]]; split; auto. }
  exact (proj1 H).
Qed.

(** Unfolding of the reduction formula. *)
Lemma sin_pow_integral_SS (j : nat) (x : R) :
  sin_pow_integral (S (S j)) x =
  (INR (S j) * sin_pow_integral j x - sin x ^ S j * cos x) / INR (S (S j)).
Proof. reflexivity. Qed.

(** Derivative of [sin ^ k]. *)
Lemma derivable_pt_lim_sin_pow (k : nat) (x : R) :
  derivable_pt_lim (fun y => sin y ^ k) x (INR k * sin x ^ pred k * cos x).
Proof.
  apply (derivable_pt_lim_comp sin (fun y => y ^ k) x (cos x) (INR k * sin x ^ pred k)).
  - apply derivable_pt_lim_sin.
  - apply derivable_pt_lim_pow.
Qed.

(** [sin_pow_integral] is an antiderivative of [sin ^ k] ... *)
Lemma sin_pow_integral_deriv_step (j : nat) (x : R) :
  derivable_pt_lim (sin_pow_integral j) x (sin x ^ j) ->
  derivable_pt_lim (sin_pow_integral (S (S j))) x (sin x ^ S (S j)).
Proof.
  intros IH.
  pose proof (derivable_pt_lim_scal _ (INR (S j)) x _ IH) as H1.
  pose proof (derivable_pt_lim_mult _ _ x _ _
                (derivable_pt_lim_sin_pow (S j) x) (derivable_pt_lim_cos x)) as H2.
  pose proof (derivable_pt_lim_minus _ _ x _ _ H1 H2) as H3.
  pose proof (derivable_pt_lim_div_scal _ x _ (INR (S (S j))) H3) as H4.
  eapply derivable_pt_lim_ext in H4; [|intros z; symmetry; apply sin_pow_integral_SS].
  replace (sin x ^ S (S j)) with
    ((INR (S j) * sin x ^ j -
      (INR (S j) * sin x ^ Init.Nat.pred (S j) * cos x * cos x + sin x ^ S j * - sin x))
     / INR (S (S j))); [exact H4|].
  cbn [Init.Nat.pred].
  assert (Hn : INR (S (S j)) <> 0) by (apply not_0_INR; lia).
  pose proof (sin2_cos2 x) as Hsc. unfold Rsqr in Hsc.
  assert (Hc : cos x * cos x = 1 - sin x * sin x) by lra.
  apply (Rmult_eq_reg_r (INR (S (S j)))); [|exact Hn].
  unfold Rdiv. rewrite Rmult_assoc, Rinv_l, Rmult_1_r by exact Hn.
  rewrite (S_INR (S j)). cbn [pow].
  set (t := sin x ^ j). set (n := INR (S j)).
  replace (n * t * cos x * cos x) with (n * t * (cos x * cos x)) by ring.
  rewrite Hc. ring.
Qed.

Lemma sin_pow_integral_deriv (k : nat) (x : R) :
  derivable_pt_lim (sin_pow_integral k) x (sin x ^ k).
Proof.
  induction k as [| |k IH] using nat_ind_by_2.
  - cbn [sin_pow_integral pow]. apply derivable_pt_lim_id.
  - cbn [sin_pow_integral pow].
    replace (sin x * 1) with (0 - - sin x) by ring.
    apply (derivable_pt_lim_minus (fct_cte 1) cos).
    + apply derivable_pt_lim_const.
    + apply derivable_pt_lim_cos.
  - now apply sin_pow_integral_deriv_step.
Qed.

(** ... that vanishes at 0. *)
Lemma sin_pow_integral_0 (k : nat) : sin_pow_integral k 0 = 0.
Proof.
  induction k as [| |k IH] using nat_ind_by_2.
  - reflexivity.
  - cbn [sin_pow_integral]. rewrite cos_0. ring.
  - rewrite sin_pow_integral_SS, IH, sin_0.
    rewrite pow_i by lia. unfold Rdiv. ring.
Qed.

(** Values and recurrence of the Wallis integrals. *)
Lemma wallis_integral_0 : wallis_integral 0 = PI / 2.
Proof. reflexivity. Qed.

Lemma wallis_integral_1 : wallis_integral 1 = 1.
Proof. unfold wallis_integral. cbn [sin_pow_integral]. rewrite cos_PI2. ring. Qed.

Lemma wallis_integral_SS (j : nat) :
  wallis_integral (S (S j)) = INR (S j) / INR (S (S j)) * wallis_integral j.
Proof.
  unfold wallis_integral. rewrite sin_pow_integral_SS, cos_PI2.
  unfold Rdiv. ring.
Qed.

(** The integrals decrease strictly: [sin ^ (k+1) < sin ^ k] inside
    the interval (mean value theorem on the difference). *)
Lemma wallis_integral_decreasing (k : nat) :
  wallis_integral (S k) < wallis_integral k.
Proof.
  pose proof PI2_RGT_0 as Hpi.
  destruct (MVT_cor2 (fun x => sin_pow_integral k x - sin_pow_integral (S k) x)
              (fun x => sin x ^ k - sin x ^ S k) 0 (PI / 2) Hpi) as (c & Hc & Hc0 & Hc1).
  { intros c _.
    apply (derivable_pt_lim_minus (sin_pow_integral k) (sin_pow_integral (S k)));
      apply sin_pow_integral_deriv. }
  rewrite !sin_pow_integral_0 in Hc.
  assert (Hs0 : 0 < sin c) by (apply sin_gt_0; lra).
  assert (Hs1 : sin c < 1).
  { rewrite <- sin_PI2. apply sin_increasing_1; lra. }
  assert (Hpow : 0 < sin c ^ k) by (apply pow_lt; assumption).
  assert (Hd : 0 < sin c ^ k - sin c ^ S k).
  { cbn [pow]. nra. }
  unfold wallis_integral. nra.
Qed.

Lemma wallis_integral_pos (k : nat) : 0 < wallis_integral k.
Proof.
  induction k as [| |k IH] using nat_ind_by_2.
  - rewrite wallis_integral_0. exact PI2_RGT_0.
  - rewrite wallis_integral_1. lra.
  - rewrite wallis_integral_SS.
    apply Rmult_lt_0_compat; [|exact IH].
    apply Rdiv_lt_0_compat; apply lt_0_INR; lia.
Qed.

(** The quotient of two consecutive integrals is the partial product
    over [PI / 2]. *)
Lemma wallis_integral_ratio (n : nat) :
  wallis_integral (S (2 * n)) * IZR (Spec.denominator n) * (PI / 2) =
  wallis_integral (2 * n) * IZR (Spec.numerator n).
Proof.
  induction n as [|n IH].
  - change (2 * 0)%nat with 0%nat.
    rewrite wallis_integral_0, wallis_integral_1. cbn. ring.
  - replace (2 * S n)%nat with (S (S (2 * n))) by lia.
    rewrite !wallis_integral_SS, numerator_S, denominator_S.
    rewrite !mult_IZR, !plus_IZR, !mult_IZR, <- !INR_IZR_INZ.
    rewrite !S_INR, mult_INR. cbn [INR].
    set (x := INR n) in *. assert (0 <= x) by (subst x; apply pos_INR).
    set (K := wallis_integral (S (2 * n))) in *.
    set (J := wallis_integral (2 * n)) in *.
    set (N := IZR (Spec.numerator n)) in *. set (D := IZR (Spec.denominator n)) in *.
    transitivity ((2 * x + 2) * (2 * x + 1) * (K * D * (PI / 2))).
    + field. lra.
    + rewrite IH. field. lra.
Qed.

(** Every partial product is below [PI]. *)
Lemma exact_lt_PI (n : nat) : Spec.exact n < PI.
Proof.
  pose proof (wallis_integral_ratio n) as Hr.
  pose proof (wallis_integral_decreasing (2 * n)) as Hd.
  pose proof (wallis_integral_pos (2 * n)) as HJ.
  pose proof (wallis_integral_pos (S (2 * n))) as HK.
  assert (HD : 0 < IZR (Spec.denominator n))
    by (apply IZR_lt; pose proof (denominator_pos n); lia).
  assert (HN : 0 < IZR (Spec.numerator n))
    by (apply IZR_lt; pose proof (numerator_pos n); lia).
  unfold Spec.exact.
  set (K := wallis_integral (S (2 * n))) in *.
  set (J := wallis_integral (2 * n)) in *.
  set (N := IZR (Spec.numerator n)) in *. set (D := IZR (Spec.denominator n)) in *.
  pose proof PI2_RGT_0 as Hpi.
  assert (HND : N < D * (PI / 2)).
  { apply (Rmult_lt_reg_l J); [exact HJ|].
    rewrite <- Hr.
    replace (K * D * (PI / 2)) with (K * (D * (PI / 2))) by ring.
    apply Rmult_lt_compat_r; [|exact Hd].
    apply Rmult_lt_0_compat; assumption. }
  apply (Rmult_lt_reg_r (D / 2)); [lra|].
  replace (2 * (N / D) * (D / 2)) with N by (field; lra).
  lra.
Qed.

Lemma IZR_numerator_pos (n : nat) : 0 < IZR (Spec.numerator n).
Proof. apply IZR_lt. pose proof (numerator_pos n). lia. Qed.

Lemma IZR_denominator_pos (n : nat) : 0 < IZR (Spec.denominator n).
Proof. apply IZR_lt. pose proof (denominator_pos n). lia. Qed.

(** ... and [PI] is below the partial product times [(2n+1)/(2n)]. *)
Lemma PI_lt_exact_upper (n : nat) :
  (1 <= n)%nat -> PI < Spec.exact n * (1 + / (2 * INR n)).
Proof.
  intros Hn. destruct n as [|j]; [lia|].
  pose proof (wallis_integral_ratio (S j)) as Hr.
  pose proof (wallis_integral_decreasing (S (2 * j))) as Hd.
  pose proof (wallis_integral_pos (S (2 * S j))) as HK.
  pose proof (IZR_numerator_pos (S j)) as HN.
  pose proof (IZR_denominator_pos (S j)) as HD.
  revert Hr HK. replace (2 * S j)%nat with (S (S (2 * j))) by lia. intros Hr HK.
  rewrite (wallis_integral_SS (S (2 * j))) in Hr, HK.
  unfold Spec.exact.
  assert (Hx : INR (S (S (2 * j))) = 2 * INR (S j)).
  { replace (S (S (2 * j))) with (2 * S j)%nat by lia. rewrite mult_INR. cbn [INR]. ring. }
  rewrite (S_INR (S (S (2 * j)))), Hx in Hr, HK.
  assert (Hpos : 0 < INR (S j)) by (apply lt_0_INR; lia).
  set (x := INR (S j)) in *.
  set (K1 := wallis_integral (S (2 * j))) in *.
  set (J := wallis_integral (S (S (2 * j)))) in *.
  set (N := IZR (Spec.numerator (S j))) in *. set (D := IZR (Spec.denominator (S j))) in *.
  assert (HK1 : 0 < K1) by apply wallis_integral_pos.
  assert (HJN : J * N < K1 * N) by (apply Rmult_lt_compat_r; assumption).
  rewrite <- Hr in HJN.
  assert (Hc : 2 * x / (2 * x + 1) * (D * (PI / 2)) < N).
  { apply (Rmult_lt_reg_l K1); [exact HK1|].
    replace (K1 * (2 * x / (2 * x + 1) * (D * (PI / 2))))
      with (2 * x / (2 * x + 1) * K1 * D * (PI / 2)) by ring.
    exact HJN. }
  apply (Rmult_lt_reg_r (2 * x / (2 * x + 1) * (D / 2))).
  { apply Rmult_lt_0_compat; [apply Rdiv_lt_0_compat|]; lra. }
  replace (2 * (N / D) * (1 + / (2 * x)) * (2 * x / (2 * x + 1) * (D / 2)))
    with N by (field; lra).
  replace (PI * (2 * x / (2 * x + 1) * (D / 2)))
    with (2 * x / (2 * x + 1) * (D * (PI / 2))) by (field; lra).
  exact Hc.
Qed.

(** One more factor of the exact value. *)
Lemma exact_S (n : nat) :
  Spec.exact (S n) =
  Spec.exact n * (1 + / (4 * (INR n + 1) * (INR n + 1) - 1)).
Proof.
  unfold Spec.exact. rewrite numerator_S, denominator_S.
  rewrite !mult_IZR, !plus_IZR, !mult_IZR, <- !INR_IZR_INZ.
  pose proof (IZR_denominator_pos n). pose proof (pos_INR n).
  field. repeat split; nra.
Qed.

Lemma exact_ge_2 (n : nat) : 2 <= Spec.exact n.
Proof.
  induction n as [|n IH].
  - unfold Spec.exact. cbn. lra.
  - rewrite exact_S. pose proof (pos_INR n).
    assert (0 < / (4 * (INR n + 1) * (INR n + 1) - 1)) by (apply Rinv_0_lt_compat; nra).
    nra.
Qed.

(** The exact values increase strictly. *)
Lemma exact_increasing_step (n : nat) : Spec.exact n < Spec.exact (S n).
Proof.
  rewrite exact_S. pose proof (exact_ge_2 n). pose proof (pos_INR n).
  assert (0 < / (4 * (INR n + 1) * (INR n + 1) - 1)) by (apply Rinv_0_lt_compat; nra).
  nra.
Qed.

Lemma exact_increasing (n m : nat) : (n < m)%nat -> Spec.exact n < Spec.exact m.
Proof.
  induction 1 as [|m Hle IH].
  - apply exact_increasing_step.
  - eapply Rlt_trans; [exact IH|apply exact_increasing_step].
Qed.


End RealAnalysis.

(* ================================================================= *)
(** * Part V: the value of the returned float *)

Lemma Rabs_le_bounds (a b : R) : (Rabs a <= b -> - b <= a <= b)%R.
Proof. unfold Rabs. destruct (Rcase_abs a); lra. Qed.

Lemma INR_to_nat (z : Z) : 0 <= z -> INR (Z.to_nat z) = IZR z.
Proof. intros H. now rewrite INR_IZR_INZ, Z2Nat.id. Qed.

(** A positive float with a negative exponent [- e] denotes [m / 2^e]. *)
Lemma to_R_neg_exponent (m e : positive) :
  to_R (S754_finite false m (Zneg e)) = (IZR (Zpos m) / IZR (2 ^ Zpos e))%R.
Proof.
  unfold to_R. cbn [cond_Zopp powerRZ].
  now rewrite pow_IZR, positive_nat_Z.
Qed.

Lemma to_R_m51 (m : positive) :
  to_R (S754_finite false m (-51)) = (IZR (Zpos m) / 2251799813685248)%R.
Proof. exact (to_R_neg_exponent m 51). Qed.

Lemma to_R_m52 (m : positive) :
  to_R (S754_finite false m (-52)) = (IZR (Zpos m) / 4503599627370496)%R.
Proof. exact (to_R_neg_exponent m 52). Qed.

(** From the first factor on, the exact value lies in [[8/3, 32/9]]. *)
Lemma exact_bounds (k : nat) :
  (1 <= k)%nat -> (8 / 3 <= Spec.exact k <= 32 / 9)%R.
Proof.
  intros Hk. unfold Spec.exact.
  pose proof (IZR_le _ _ (ratio_lower k Hk)) as Hlo.
  pose proof (IZR_le _ _ (ratio_upper k)) as Hup.
  rewrite !mult_IZR in Hlo, Hup.
  pose proof (IZR_denominator_pos k) as HD.
  set (D := IZR (Spec.denominator k)) in *.
  set (t := (IZR (Spec.numerator k) / D)%R).
  assert (Ht : IZR (Spec.numerator k) = (t * D)%R) by (subst t; field; lra).
  rewrite Ht in Hlo, Hup.
  assert ((4 <= 3 * t)%R) by (apply (Rmult_le_reg_r D); [exact HD|lra]).
  assert ((9 * t <= 16)%R) by (apply (Rmult_le_reg_r D); [exact HD|lra]).
  lra.
Qed.

(** For [n >= 1] the quotient is rounded once, to the nearest float,
    and the doubling is exact. *)
Lemma w_pi_quotient (n : Z) :
  1 <= n ->
  exists q,
    int_true_divide (Spec.numerator (Z.to_nat n)) (Spec.denominator (Z.to_nat n))
      = Return q
    /\ w_pi n = Return (float_mul float_2_0 q)
    /\ (Rabs (to_R q - IZR (Spec.numerator (Z.to_nat n))
                       / IZR (Spec.denominator (Z.to_nat n)))
        <= / 9007199254740992)%R
    /\ to_R (float_mul float_2_0 q) = (2 * to_R q)%R.
Proof.
  intros Hn.
  destruct (w_pi_positive n Hn) as (q & m & Eq & -> & E & Hm & Hnear).
  exists (S754_finite false m (-52)).
  assert (Hm' : 2 ^ 52 <= Zpos m < 2 ^ 53) by lia.
  rewrite (float_mul_2_0 m Hm'), to_R_m51, to_R_m52.
  split; [exact Eq|]. split; [exact E|].
  pose proof (IZR_denominator_pos (Z.to_nat n)) as HD.
  apply Z.abs_le in Hnear. destruct Hnear as [H1 H2].
  change (2 ^ 53) with 9007199254740992 in H1, H2.
  apply IZR_le in H1, H2.
  rewrite opp_IZR in H1. rewrite minus_IZR, !mult_IZR in H1, H2.
  set (M := IZR (Zpos m)) in *.
  set (D := IZR (Spec.denominator (Z.to_nat n))) in *.
  set (t := (IZR (Spec.numerator (Z.to_nat n)) / D)%R).
  assert (Ht : IZR (Spec.numerator (Z.to_nat n)) = (t * D)%R)
    by (subst t; field; lra).
  rewrite Ht in H1, H2.
  assert (H1' : (-1 <= 9007199254740992 * t - 2 * M)%R).
  { apply (Rmult_le_reg_r D); [exact HD|]. lra. }
  assert (H2' : (9007199254740992 * t - 2 * M <= 1)%R).
  { apply (Rmult_le_reg_r D); [exact HD|]. lra. }
  split; [apply Rabs_le|]; lra.
Qed.

(** The same for every [n >= 0]: at [n = 0] the quotient is [1 / 1]. *)
Lemma w_pi_single_rounding (n : Z) :
  0 <= n ->
  exists q,
    int_true_divide (Spec.numerator (Z.to_nat n)) (Spec.denominator (Z.to_nat n))
      = Return q
    /\ w_pi n = Return (float_mul float_2_0 q)
    /\ (Rabs (to_R q - IZR (Spec.numerator (Z.to_nat n))
                       / IZR (Spec.denominator (Z.to_nat n)))
        <= / 9007199254740992)%R
    /\ to_R (float_mul float_2_0 q) = (2 * to_R q)%R.
Proof.
  intros Hn. destruct (Z.eq_dec n 0) as [->|Hne].
  - exists (S754_finite false 4503599627370496 (-52)).
    change (Z.to_nat 0) with 0%nat.
    change (Spec.numerator 0) with 1. change (Spec.denominator 0) with 1.
    split; [reflexivity|]. split; [reflexivity|].
    change (float_mul float_2_0 (S754_finite false 4503599627370496 (-52)))
      with (S754_finite false 4503599627370496 (-51)).
    rewrite to_R_m51, to_R_m52.
    split; [apply Rabs_le|]; lra.
  - apply w_pi_quotient. lia.
Qed.

(** For [n >= 1] the returned float is within [2^-52] of the exact
    partial product, and strictly inside [(2, 4)]. *)
Lemma w_pi_value (n : Z) :
  1 <= n ->
  exists x,
    w_pi n = Return x
    /\ (Rabs (to_R x - Spec.exact (Z.to_nat n)) <= / 4503599627370496)%R
    /\ (2 < to_R x < 4)%R.
Proof.
  intros Hn.
  destruct (w_pi_quotient n Hn) as (q & _ & E & Hq & Hdbl).
  exists (float_mul float_2_0 q). split; [exact E|]. rewrite Hdbl.
  pose proof (exact_bounds (Z.to_nat n) ltac:(lia)) as Hb.
  unfold Spec.exact in *. apply Rabs_le_bounds in Hq.
  split; [apply Rabs_le|]; lra.
Qed.


(** The result recorded in the notebook for the cell [w_pi(1000)] is
    [3.1408077460303945]: the model returns the double that prints so. *)
Set Warnings "-inexact-float".
Example w_pi_1000_recorded_output :
  exists x, w_pi 1000 = Return x /\ SF2Prim x = 3.1408077460303945%float.
Proof. eexists. split; [apply w_pi_1000|]. vm_compute. reflexivity. Qed.
Set Warnings "+inexact-float".

(* ================================================================= *)
(** * Part VI: totality of the call, size of the accumulators *)

(** A non-zero divisor never gives [ZeroDivisionError]. *)
Lemma int_true_divide_nonzero (a b : Z) :
  b <> 0 -> int_true_divide a b <> Raise ZeroDivisionError.
Proof.
  intros Hb. unfold int_true_divide.
  destruct (Z.eqb_spec b 0) as [E|_]; [contradiction|].
  destruct (SFdiv prec emax (int_operand a) (int_operand b)); discriminate.
Qed.

(** The call returns a float for every integer argument. *)
Lemma w_pi_returns (n : Z) : exists x, w_pi n = Return x.
Proof.
  destruct (Z.le_gt_cases n 0) as [H|H].
  - exists float_2_0. now apply w_pi_nonpositive.
  - destruct (w_pi_positive n ltac:(lia)) as (q & m & _ & _ & E & _).
    eauto.
Qed.

Lemma int_true_divide_returns (n : Z) :
  exists q, int_true_divide (num (loop n)) (den (loop n)) = Return q.
Proof.
  rewrite loop_products. cbn [num den].
  destruct (Z.le_gt_cases n 0) as [H|H].
  - replace (Z.to_nat n) with 0%nat by lia. eexists. reflexivity.
  - destruct (w_pi_positive n ltac:(lia)) as (q & m & E & _). eauto.
Qed.

(** Every factor of the numerator is at least 4: the products outgrow
    every fixed width. *)
Lemma numerator_lower (k : nat) : 4 ^ Z.of_nat k <= Spec.numerator k.
Proof.
  induction k as [|k IH]; [cbn; lia|].
  rewrite numerator_S, Nat2Z.inj_succ, Z.pow_succ_r by lia.
  pose proof (Z.pow_pos_nonneg 4 (Z.of_nat k) ltac:(lia) ltac:(lia)). nia.
Qed.

Lemma loop_exceeds_64_bits (n : Z) : 32 <= n -> 2 ^ 64 <= num (loop n).
Proof.
  intros H. rewrite loop_products. cbn [num].
  eapply Z.le_trans; [|apply numerator_lower].
  change (2 ^ 64) with (4 ^ 32). apply Z.pow_le_mono_r; lia.
Qed.


(* ================================================================= *)
(** * Part VII: the claims *)

(** Claim C1.  For every non-negative [n], the loop leaves the exact
    products [N] (of [4*i*i], [i = 1..n]) and [D] (of [4*i*i - 1]) in
    [num] and [den], and [w_pi n] returns [2.0 * (N / D)]: the integers
    are divided once, the quotient [q] is the float within [2^-53] of
    the rational [N / D], and the multiplication by [2.0] doubles it
    without rounding. *)
Theorem w_pi_divides_exact_products_once (n : Z) :
  0 <= n ->
  exists q,
    loop n = {| num := Spec.numerator (Z.to_nat n);
                den := Spec.denominator (Z.to_nat n) |}
    /\ int_true_divide (Spec.numerator (Z.to_nat n))
                       (Spec.denominator (Z.to_nat n)) = Return q
    /\ w_pi n = Return (float_mul float_2_0 q)
    /\ (Rabs (to_R q - IZR (Spec.numerator (Z.to_nat n))
                       / IZR (Spec.denominator (Z.to_nat n)))
        <= / 9007199254740992)%R
    /\ to_R (float_mul float_2_0 q) = (2 * to_R q)%R.
Proof.
  intros Hn. destruct (w_pi_single_rounding n Hn) as (q & Hq).
  exists q. split; [apply loop_products|exact Hq].
Qed.

Lemma w_pi_divides_exact_products_once_witness :
  0 <= 3 /\
  exists q,
    loop 3 = {| num := Spec.numerator (Z.to_nat 3);
                den := Spec.denominator (Z.to_nat 3) |}
    /\ int_true_divide (Spec.numerator (Z.to_nat 3))
                       (Spec.denominator (Z.to_nat 3)) = Return q
    /\ w_pi 3 = Return (float_mul float_2_0 q)
    /\ (Rabs (to_R q - IZR (Spec.numerator (Z.to_nat 3))
                       / IZR (Spec.denominator (Z.to_nat 3)))
        <= / 9007199254740992)%R
    /\ to_R (float_mul float_2_0 q) = (2 * to_R q)%R.
Proof.
  split; [lia|]. apply (w_pi_divides_exact_products_once 3). lia.
Defined.

(** Claim C2, as the code has it.  The claim asks for an
    [InvalidArgument] failure on negative [n]; the function has no
    argument check.  What holds: for every negative [n] the call raises
    nothing and returns a float. *)
Theorem w_pi_negative_does_not_raise (n : Z) :
  n < 0 -> ~ raises (w_pi n) /\ exists x, w_pi n = Return x.
Proof.
  intros Hn. rewrite w_pi_nonpositive by lia. split.
  - intros [e He]. discriminate He.
  - eauto.
Qed.

Lemma w_pi_negative_does_not_raise_witness :
  -7 < 0 /\ ~ raises (w_pi (-7)) /\ exists x, w_pi (-7) = Return x.
Proof.
  split; [lia|]. apply (w_pi_negative_does_not_raise (-7)). lia.
Defined.

(** Claim C2 as stated fails at [n = -1]: the call does not fail, it
    returns [2.0]. *)
Lemma w_pi_minus_1_returns :
  w_pi (-1) = Return float_2_0 /\ ~ raises (w_pi (-1)).
Proof.
  split; [reflexivity|]. intros [e He]. discriminate He.
Qed.

(** Claim C3.  [w_pi 0] is exactly [2.0]: the loop does not run, both
    accumulators stay 1, and [2.0 * (1 / 1)] is the float 2. *)
Theorem w_pi_0_is_exactly_2 :
  range 1 (0 + 1) = [] /\ num (loop 0) = 1 /\ den (loop 0) = 1
  /\ w_pi 0 = Return float_2_0 /\ to_R float_2_0 = 2%R.
Proof.
  repeat split. unfold float_2_0. rewrite to_R_m51. lra.
Qed.

(** Claim C4.  For [n = 1] the loop ends with [num = 4] and [den = 3],
    and [w_pi 1] is the float that the expression [8/3] evaluates to,
    the double nearest to the rational 8/3. *)
Theorem w_pi_1_is_8_thirds :
  num (loop 1) = 4 /\ den (loop 1) = 3
  /\ w_pi 1 = int_true_divide 8 3
  /\ exists x, w_pi 1 = Return x
               /\ (Rabs (to_R x - 8 / 3) <= / 4503599627370496)%R.
Proof.
  split; [reflexivity|]. split; [reflexivity|]. split; [reflexivity|].
  exists (S754_finite false 6004799503160661 (-51)).
  split; [reflexivity|]. rewrite to_R_m51. apply Rabs_le. lra.
Qed.

(** Claim C5, as the code has it.  For every [n >= 1] the returned float
    lies strictly between [2.0] and [4.0], both for the float comparison
    and for the real number it denotes.  (At [n = 0] the result is the
    end point [2.0] itself, see the next lemma.) *)
Theorem w_pi_strictly_between_2_and_4 (n : Z) :
  1 <= n ->
  strictly_between_2_and_4 (w_pi n) = true
  /\ exists x, w_pi n = Return x /\ (2 < to_R x < 4)%R.
Proof.
  intros Hn. split.
  - destruct (w_pi_positive n Hn) as (q & m & _ & _ & E & Hm & _).
    rewrite E. unfold strictly_between_2_and_4, float_lt, SFltb, SFcompare.
    unfold float_2_0, float_4_0.
    change (-51 ?= -51) with Eq. change (-51 ?= -50) with Lt. cbv iota.
    change (Pos.compare_cont Eq 4503599627370496 m)
      with (4503599627370496 ?= m)%positive.
    replace (4503599627370496 ?= m)%positive with Lt; [reflexivity|].
    symmetry. apply Pos.compare_lt_iff.
    change (2 ^ 52) with (Zpos 4503599627370496) in Hm. lia.
  - destruct (w_pi_value n Hn) as (x & E & _ & Hx). eauto.
Qed.

Lemma w_pi_strictly_between_2_and_4_witness :
  1 <= 5 /\
  strictly_between_2_and_4 (w_pi 5) = true
  /\ exists x, w_pi 5 = Return x /\ (2 < to_R x < 4)%R.
Proof.
  split; [lia|]. apply (w_pi_strictly_between_2_and_4 5). lia.
Defined.

(** Claim C5 as stated fails at the valid input [n = 0]: the result is
    [2.0], which is not strictly above [2.0]. *)
Lemma w_pi_0_not_strictly_above_2 :
  0 <= 0 /\ w_pi 0 = Return float_2_0
  /\ strictly_between_2_and_4 (w_pi 0) = false
  /\ ~ (2 < to_R float_2_0)%R.
Proof.
  split; [lia|]. split; [reflexivity|]. split; [reflexivity|].
  unfold float_2_0. rewrite to_R_m51. lra.
Qed.



(** Claim C7, as the code has it.  Loop invariant: after [k] passes
    ([0 <= k <= n]) the accumulators hold the exact integer products
    over [i = 1..k] of [4*i*i] and of [4*i*i - 1]; they are unbounded
    integers, so no pass wraps or rounds, whatever [n] is.  After the
    [n]-th pass the loop is over, and [return 2.0*(num/den)] performs
    two floating-point operations on these integers: the division, which
    rounds the exact quotient once (the float [q] is within [2^-53] of
    [num / den]), and then the multiplication by [2.0], which doubles
    [q] without rounding. *)
Theorem loop_invariant_exact_products (n k : Z) :
  0 <= k <= n ->
  loop_prefix n (Z.to_nat k) =
    {| num := Spec.numerator (Z.to_nat k);
       den := Spec.denominator (Z.to_nat k) |}
  /\ loop_prefix n (Z.to_nat n) = loop n
  /\ exists q,
       int_true_divide (num (loop n)) (den (loop n)) = Return q
       /\ (Rabs (to_R q - IZR (num (loop n)) / IZR (den (loop n)))
           <= / 9007199254740992)%R
       /\ w_pi n = Return (float_mul float_2_0 q)
       /\ to_R (float_mul float_2_0 q) = (2 * to_R q)%R.
Proof.
  intros Hk. split; [apply loop_prefix_products; lia|].
  split; [apply loop_prefix_all|].
  destruct (w_pi_single_rounding n ltac:(lia)) as (q & H1 & H2 & H3 & H4).
  exists q. rewrite loop_products. cbn [num den]. auto.
Qed.

Lemma loop_invariant_exact_products_witness :
  0 <= 4 <= 6 /\
  loop_prefix 6 (Z.to_nat 4) =
    {| num := Spec.numerator (Z.to_nat 4);
       den := Spec.denominator (Z.to_nat 4) |}
  /\ loop_prefix 6 (Z.to_nat 6) = loop 6
  /\ exists q,
       int_true_divide (num (loop 6)) (den (loop 6)) = Return q
       /\ (Rabs (to_R q - IZR (num (loop 6)) / IZR (den (loop 6)))
           <= / 9007199254740992)%R
       /\ w_pi 6 = Return (float_mul float_2_0 q)
       /\ to_R (float_mul float_2_0 q) = (2 * to_R q)%R.
Proof.
  split; [lia|]. apply (loop_invariant_exact_products 6 4). lia.
Defined.

(** Claim C7 as stated fails in its last clause: the division is not the
    only floating-point operation.  At [n = 1] the division gives the
    float [q] nearest to [4/3]; the call returns [2.0 * q], another
    float. *)
Lemma w_pi_1_multiplies_after_dividing :
  num (loop 1) = 4 /\ den (loop 1) = 3
  /\ exists q,
       int_true_divide (num (loop 1)) (den (loop 1)) = Return q
       /\ w_pi 1 = Return (float_mul float_2_0 q)
       /\ float_mul float_2_0 q <> q
       /\ w_pi 1 <> int_true_divide (num (loop 1)) (den (loop 1)).
Proof.
  split; [reflexivity|]. split; [reflexivity|].
  exists (S754_finite false 6004799503160661 (-52)).
  split; [reflexivity|]. split; [reflexivity|].
  split; intros H; vm_compute in H; discriminate H.
Qed.

(** The instance [n = 100000] of the invariant, and the size of the
    numerator there: far beyond 64 bits, and still exact. *)
Example loop_100000_exact :
  loop 100000 =
    {| num := Spec.numerator (Z.to_nat 100000);
       den := Spec.denominator (Z.to_nat 100000) |}
  /\ 2 ^ 64 <= num (loop 100000).
Proof.
  split; [apply loop_products|]. apply loop_exceeds_64_bits. lia.
Qed.

(** Claim C9.  For every negative [n] the range [range(1, n+1)] is
    empty, the loop does not run, and the call raises nothing and
    returns exactly [2.0], the value of [w_pi 0]. *)
Theorem w_pi_negative_is_empty_product (n : Z) :
  n < 0 ->
  range 1 (n + 1) = [] /\ loop n = init
  /\ w_pi n = Return float_2_0 /\ w_pi n = w_pi 0.
Proof.
  intros Hn. split; [apply range_empty; lia|].
  split; [now apply loop_negative|].
  rewrite w_pi_nonpositive by lia. split; reflexivity.
Qed.

Lemma w_pi_negative_is_empty_product_witness :
  -3 < 0 /\
  range 1 (-3 + 1) = [] /\ loop (-3) = init
  /\ w_pi (-3) = Return float_2_0 /\ w_pi (-3) = w_pi 0.
Proof.
  split; [lia|]. apply (w_pi_negative_is_empty_product (-3)). lia.
Defined.

(** Claim C10.  For every integer [n], each factor [4*i*i - 1] met by
    the loop is at least 3, the denominator at the final division is at
    least 1, and the division returns a float: it is never a division by
    zero (nor any other failure). *)
Theorem final_division_never_by_zero (n : Z) :
  Forall (fun i => 1 <= i /\ 3 <= 4 * i * i - 1) (range 1 (n + 1))
  /\ 1 <= den (loop n)
  /\ (den (loop n) =? 0) = false
  /\ int_true_divide (num (loop n)) (den (loop n)) <> Raise ZeroDivisionError
  /\ (exists q, int_true_divide (num (loop n)) (den (loop n)) = Return q)
  /\ (exists x, w_pi n = Return x).
Proof.
  split.
  { apply Forall_forall. intros i Hi. apply range_In in Hi. nia. }
  assert (Hden : 1 <= den (loop n)).
  { rewrite loop_products. cbn [den]. apply denominator_pos. }
  split; [exact Hden|].
  split; [apply Z.eqb_neq; lia|].
  split; [apply int_true_divide_nonzero; lia|].
  split; [apply int_true_divide_returns|apply w_pi_returns].
Qed.

(* ================================================================= *)
(** * Part VIII: monotonicity, accuracy, and the plotted errors *)

(** ** The returned float as a function of [n] *)

(** The quotient of the products increases with the number of factors. *)
Lemma ratio_increasing_lt (j k : nat) :
  (j < k)%nat ->
  Spec.numerator j * Spec.denominator k < Spec.numerator k * Spec.denominator j.
Proof.
  induction 1 as [|k Hle IH].
  - apply ratio_increasing.
  - pose proof (ratio_increasing k) as Hs.
    pose proof (numerator_pos j). pose proof (denominator_pos j).
    pose proof (numerator_pos k). pose proof (denominator_pos k).
    pose proof (numerator_pos (S k)). pose proof (denominator_pos (S k)).
    set (Nj := Spec.numerator j) in *. set (Dj := Spec.denominator j) in *.
    set (Nk := Spec.numerator k) in *. set (Dk := Spec.denominator k) in *.
    set (Ns := Spec.numerator (S k)) in *. set (Ds := Spec.denominator (S k)) in *.
    apply (Z.mul_lt_mono_pos_r Dk); [lia|].
    apply Z.lt_trans with (Nk * Dj * Ds).
    + replace (Nj * Ds * Dk) with (Nj * Dk * Ds) by ring.
      apply Z.mul_lt_mono_pos_r; lia.
    + replace (Nk * Dj * Ds) with (Nk * Ds * Dj) by ring.
      replace (Ns * Dj * Dk) with (Ns * Dk * Dj) by ring.
      apply Z.mul_lt_mono_pos_r; lia.
Qed.

(** Rounding to nearest keeps the order of two quotients. *)
Lemma nearest_monotone (N1 D1 N2 D2 a b : Z) :
  0 < D1 -> 0 < D2 ->
  N1 * D2 < N2 * D1 ->
  Z.abs (2 ^ 53 * N1 - 2 * a * D1) <= D1 ->
  Z.abs (2 ^ 53 * N2 - 2 * b * D2) <= D2 ->
  a <= b.
Proof.
  intros H1 H2 Hlt Ha Hb.
  apply Z.abs_le in Ha, Hb.
  assert (Ha' : 2 * a * D1 * D2 <= (2 ^ 53 * N1 + D1) * D2)
    by (apply Z.mul_le_mono_nonneg_r; lia).
  assert (Hb' : (2 ^ 53 * N2 - D2) * D1 <= 2 * b * D2 * D1)
    by (apply Z.mul_le_mono_nonneg_r; lia).
  assert (Hc : 2 ^ 53 * (N1 * D2) < 2 ^ 53 * (N2 * D1))
    by (apply Z.mul_lt_mono_pos_l; lia).
  assert (Hd : 2 * a * (D1 * D2) < 2 * (b + 1) * (D1 * D2)) by lia.
  assert (0 < D1 * D2) by nia.
  apply Z.mul_lt_mono_pos_r in Hd; lia.
Qed.

Lemma float_lt_m51 (a b : positive) :
  float_lt (S754_finite false a (-51)) (S754_finite false b (-51)) = (Zpos a <? Zpos b).
Proof.
  unfold float_lt, SFltb, SFcompare. change (-51 ?= -51) with Eq. cbv iota.
  change (Pos.compare_cont Eq a b) with (a ?= b)%positive.
  unfold Z.ltb. cbn [Z.compare]. reflexivity.
Qed.

(** Every call returns a float of exponent [-51]; the mantissa grows
    with [n]. *)
Lemma w_pi_mantissa (n : Z) :
  exists a, w_pi n = Return (S754_finite false a (-51))
            /\ 2 ^ 52 <= Zpos a < 2 ^ 53.
Proof.
  destruct (Z.le_gt_cases n 0) as [H|H].
  - exists 4503599627370496%positive. rewrite w_pi_nonpositive by lia.
    split; [reflexivity|]. change (2 ^ 52) with 4503599627370496.
    change (2 ^ 53) with 9007199254740992. lia.
  - destruct (w_pi_positive n ltac:(lia)) as (q & m & _ & _ & E & Hm & _).
    exists m. split; [exact E|lia].
Qed.

Lemma w_pi_mantissa_monotone (n m : Z) :
  n <= m ->
  exists a b,
    w_pi n = Return (S754_finite false a (-51))
    /\ w_pi m = Return (S754_finite false b (-51))
    /\ Zpos a <= Zpos b.
Proof.
  intros Hnm.
  destruct (Z.le_gt_cases m 0) as [Hm|Hm].
  { exists 4503599627370496%positive, 4503599627370496%positive.
    rewrite !w_pi_nonpositive by lia.
    split; [reflexivity|]. split; [reflexivity|]. lia. }
  destruct (w_pi_positive m ltac:(lia)) as (qm & b & _ & _ & Em & Hb & Hnb).
  change (2 ^ 52) with 4503599627370496 in Hb.
  destruct (Z.le_gt_cases n 0) as [Hn|Hn].
  { exists 4503599627370496%positive, b. rewrite w_pi_nonpositive by lia.
    split; [reflexivity|]. split; [exact Em|]. lia. }
  destruct (w_pi_positive n ltac:(lia)) as (qn & a & _ & _ & En & Ha & Hna).
  exists a, b. split; [exact En|]. split; [exact Em|].
  destruct (Z.eq_dec n m) as [->|Hne].
  - rewrite En in Em. injection Em as ->. lia.
  - pose proof (denominator_pos (Z.to_nat n)) as HDn.
    pose proof (denominator_pos (Z.to_nat m)) as HDm.
    refine (nearest_monotone _ _ _ _ _ _ _ _ _ Hna Hnb); [lia|lia|].
    apply ratio_increasing_lt. lia.
Qed.

(** Up to [2^25] factors, one more factor moves the returned float:
    the increase of the exact value exceeds the two rounding errors. *)
Lemma w_pi_mantissa_increasing (n m : Z) :
  0 <= n -> n < m -> m <= 2 ^ 25 ->
  exists a b,
    w_pi n = Return (S754_finite false a (-51))
    /\ w_pi m = Return (S754_finite false b (-51))
    /\ Zpos a < Zpos b.
Proof.
  intros Hn Hnm Hm.
  destruct (w_pi_positive m ltac:(lia)) as (qm & b & _ & _ & Em & Hb & _).
  destruct (Z.eq_dec n 0) as [->|Hn0].
  { exists 4503599627370496%positive, b. split; [reflexivity|]. split; [exact Em|].
    change (2 ^ 52) with 4503599627370496 in Hb. lia. }
  destruct (w_pi_positive n ltac:(lia)) as (qn & a & _ & _ & En & Ha & _).
  exists a, b. split; [exact En|]. split; [exact Em|].
  destruct (w_pi_value n ltac:(lia)) as (x & Ex & Hx & _).
  destruct (w_pi_value m ltac:(lia)) as (y & Ey & Hy & _).
  rewrite En in Ex. injection Ex as <-. rewrite Em in Ey. injection Ey as <-.
  rewrite to_R_m51 in Hx, Hy. apply Rabs_le_bounds in Hx, Hy.
  pose proof (exact_S (Z.to_nat n)) as HS. rewrite INR_to_nat in HS by lia.
  pose proof (exact_ge_2 (Z.to_nat n)) as H2.
  assert (HM : (Spec.exact (S (Z.to_nat n)) <= Spec.exact (Z.to_nat m))%R).
  { destruct (Z.eq_dec (n + 1) m) as [<-|Hne].
    - replace (Z.to_nat (n + 1)) with (S (Z.to_nat n)) by lia. apply Rle_refl.
    - left. apply exact_increasing. lia. }
  rewrite HS in HM.
  assert (Hu1 : (1 <= IZR n + 1)%R).
  { rewrite <- plus_IZR. apply IZR_le. lia. }
  assert (Hu2 : (IZR n + 1 <= 33554432)%R).
  { rewrite <- plus_IZR. apply IZR_le. change (2 ^ 25) with 33554432 in Hm. lia. }
  set (u := (IZR n + 1)%R) in *.
  assert (Hden : (0 < 4 * u * u - 1 < 4503599627370496)%R) by nra.
  assert (Hinv : (/ 4503599627370496 < / (4 * u * u - 1))%R)
    by (apply Rinv_lt_contravar; nra).
  set (e := Spec.exact (Z.to_nat n)) in *.
  set (g := (/ (4 * u * u - 1))%R) in *.
  assert (Hlt : (IZR (Zpos a) / 2251799813685248 < IZR (Zpos b) / 2251799813685248)%R)
    by nra.
  apply lt_IZR. unfold Rdiv in Hlt.
  apply Rmult_lt_reg_r in Hlt; [exact Hlt|lra].
Qed.

(** ** Size and closed form of the accumulators *)

Lemma numerator_mono (j k : nat) :
  (j <= k)%nat -> Spec.numerator j <= Spec.numerator k.
Proof.
  induction 1 as [|k Hle IH]; [lia|].
  rewrite numerator_S. pose proof (numerator_pos k). nia.
Qed.

Lemma denominator_mono (j k : nat) :
  (j <= k)%nat -> Spec.denominator j <= Spec.denominator k.
Proof.
  induction 1 as [|k Hle IH]; [lia|].
  rewrite denominator_S. pose proof (denominator_pos k). nia.
Qed.

Lemma products_closed_form (k : nat) :
  Spec.numerator k = 4 ^ Z.of_nat k * Z.of_nat (fact k) ^ 2
  /\ Spec.numerator k * Spec.denominator k
     = Z.of_nat (fact (2 * k)) * Z.of_nat (fact (2 * k + 1)).
Proof.
  induction k as [|k [IH1 IH2]]; [split; reflexivity|].
  rewrite numerator_S, denominator_S.
  replace (2 * S k)%nat with (S (S (2 * k))) by lia.
  replace (S (S (2 * k)) + 1)%nat with (S (S (2 * k + 1))) by lia.
  replace (fact (S k)) with (S k * fact k)%nat by reflexivity.
  replace (fact (S (S (2 * k)))) with (S (S (2 * k)) * (S (2 * k) * fact (2 * k)))%nat
    by reflexivity.
  replace (fact (S (S (2 * k + 1))))
    with (S (S (2 * k + 1)) * (S (2 * k + 1) * fact (2 * k + 1)))%nat by reflexivity.
  rewrite !Nat2Z.inj_mul, !Nat2Z.inj_succ, !Nat2Z.inj_add, !Nat2Z.inj_mul, Z.pow_succ_r by lia.
  change (Z.of_nat 2) with 2. change (Z.of_nat 1) with 1.
  set (x := Z.of_nat k) in *.
  set (f := Z.of_nat (fact k)) in *.
  set (g := Z.of_nat (fact (2 * k))) in *.
  set (h := Z.of_nat (fact (2 * k + 1))) in *.
  set (N := Spec.numerator k) in *. set (D := Spec.denominator k) in *.
  split.
  - rewrite IH1. ring.
  - replace (N * (4 * (x + 1) * (x + 1)) * (D * ((2 * x + 1) * (2 * x + 3))))
      with (N * D * (4 * (x + 1) * (x + 1) * ((2 * x + 1) * (2 * x + 3)))) by ring.
    rewrite IH2. ring.
Qed.

(** ** Subtraction of two floats of [[2, 4)] *)

Lemma iter_xO_pow2 (d q : positive) :
  Zpos (Pos.iter xO d q) = Zpos d * 2 ^ Zpos q.
Proof.
  induction q as [|q IH] using Pos.peano_ind.
  - cbn [Pos.iter]. lia.
  - rewrite Pos.iter_succ, Pos2Z.inj_succ, Z.pow_succ_r by lia.
    rewrite Pos2Z.inj_xO, IH. ring.
Qed.

Lemma round_exact_canonical (s : bool) (m : positive) (e : Z) :
  2 ^ 52 <= Zpos m < 2 ^ 53 -> -1074 <= e <= 971 ->
  binary_round_aux prec emax s (Zpos m) e loc_Exact = S754_finite s m e.
Proof.
  intros Hm He. unfold binary_round_aux.
  rewrite shr_fexp_canonical by lia.
  cbn [shr_record_of_loc shr_m loc_of_shr_record round_nearest_even].
  rewrite shr_fexp_canonical by lia.
  cbn [shr_record_of_loc shr_m].
  replace (e <=? emax - prec) with true; [reflexivity|].
  symmetry. apply Z.leb_le. unfold emax, prec. lia.
Qed.

(** [abs(x - y)] for two floats [x < y] of the binade [[2, 4)]: the
    difference of the mantissas, normalised; nothing is rounded. *)
Lemma float_abs_sub_exact (a p : positive) :
  2 ^ 52 <= Zpos a -> Zpos a < Zpos p -> Zpos p < 2 ^ 53 ->
  exists mz ez,
    Np.float_abs (Np.float_sub (S754_finite false a (-51)) (S754_finite false p (-51)))
      = S754_finite false mz ez
    /\ 2 ^ 52 <= Zpos mz < 2 ^ 53
    /\ -103 <= ez <= -52
    /\ Zpos mz * 2 ^ (ez + 104) = (Zpos p - Zpos a) * 2 ^ 53.
Proof.
  intros Ha Hap Hp.
  unfold Np.float_abs, Np.float_sub, SFsub.
  change (Z.min (-51) (-51)) with (-51).
  unfold shl_align at 1 2. change (-51 - -51) with 0. cbv iota. cbn [fst cond_Zopp].
  assert (Hd : Zpos a - Zpos p = Zneg (p - a)) by lia.
  rewrite Hd. cbn [binary_normalize]. unfold binary_round.
  pose proof (digits2_pos_bounds (p - a)) as Hk.
  set (d := (p - a)%positive) in *.
  assert (Hdv : Zpos d = Zpos p - Zpos a) by (subst d; lia).
  set (k := Zpos (digits2_pos d)) in *.
  assert (Hk1 : 1 <= k) by (subst k; lia).
  assert (Hk52 : k <= 52).
  { destruct (Z.le_gt_cases k 52) as [|Hgt]; [assumption|exfalso].
    assert (2 ^ 52 <= 2 ^ (k - 1)) by (apply Z.pow_le_mono_r; lia). lia. }
  replace (fexp prec emax (k + -51)) with (k - 104)
    by (unfold fexp, emin, prec, emax; lia).
  unfold shl_align.
  destruct (k - 104 - -51) as [|q|q] eqn:Eq; try lia.
  assert (Hq : Zpos q = 53 - k) by lia.
  assert (Hmz : Zpos (Pos.iter xO d q) = Zpos d * 2 ^ (53 - k))
    by (rewrite iter_xO_pow2, Hq; reflexivity).
  assert (Hpow : 2 ^ (k - 1) * 2 ^ (53 - k) = 2 ^ 52).
  { rewrite <- Z.pow_add_r by lia. f_equal. lia. }
  assert (Hpow' : 2 ^ k * 2 ^ (53 - k) = 2 ^ 53).
  { rewrite <- Z.pow_add_r by lia. f_equal. lia. }
  assert (Hpos : 0 < 2 ^ (53 - k)) by (apply Z.pow_pos_nonneg; lia).
  assert (Hb : 2 ^ 52 <= Zpos (Pos.iter xO d q) < 2 ^ 53).
  { rewrite Hmz. split.
    - rewrite <- Hpow. apply Z.mul_le_mono_nonneg_r; lia.
    - rewrite <- Hpow'. apply Z.mul_lt_mono_pos_r; lia. }
  rewrite round_exact_canonical by lia.
  exists (Pos.iter xO d q), (k - 104). split; [reflexivity|].
  split; [exact Hb|]. split; [lia|].
  rewrite Hmz, <- Hdv. replace (k - 104 + 104) with k by lia.
  rewrite <- Hpow'. ring.
Qed.

(** Order of two positive floats in canonical form. *)
Lemma float_lt_canonical (m1 m2 : positive) (e1 e2 : Z) :
  2 ^ 52 <= Zpos m1 < 2 ^ 53 -> 2 ^ 52 <= Zpos m2 < 2 ^ 53 ->
  -104 <= e1 -> -104 <= e2 ->
  Zpos m1 * 2 ^ (e1 + 104) < Zpos m2 * 2 ^ (e2 + 104) ->
  float_lt (S754_finite false m1 e1) (S754_finite false m2 e2) = true.
Proof.
  intros H1 H2 He1 He2 Hlt.
  unfold float_lt, SFltb, SFcompare.
  destruct (Z.compare_spec e1 e2) as [->|Hc|Hc].
  - change (Pos.compare_cont Eq m1 m2) with (m1 ?= m2)%positive.
    assert (Hm : (m1 < m2)%positive).
    { assert (0 < 2 ^ (e2 + 104)) by (apply Z.pow_pos_nonneg; lia).
      apply Z.mul_lt_mono_pos_r in Hlt; lia. }
    apply Pos.compare_lt_iff in Hm. now rewrite Hm.
  - reflexivity.
  - exfalso.
    assert (Hp : 2 ^ (e1 + 104) = 2 ^ (e1 - e2) * 2 ^ (e2 + 104)).
    { rewrite <- Z.pow_add_r by lia. f_equal. lia. }
    assert (2 <= 2 ^ (e1 - e2)).
    { change 2 with (2 ^ 1) at 1. apply Z.pow_le_mono_r; lia. }
    assert (0 < 2 ^ (e2 + 104)) by (apply Z.pow_pos_nonneg; lia).
    rewrite Hp in Hlt. nia.
Qed.

Lemma IZR_pow2 (z : Z) : 0 <= z -> IZR (2 ^ z) = powerRZ 2 z.
Proof.
  intros Hz. destruct z as [|p|p]; [reflexivity| |lia].
  change (2 ^ Zpos p) with (Z.pow_pos 2 p). apply Zpower_pos_powerRZ.
Qed.

(** The real value of a positive float from its scaled mantissa. *)
Lemma to_R_scaled (m : positive) (e d : Z) :
  -104 <= e -> Zpos m * 2 ^ (e + 104) = d * 2 ^ 53 ->
  to_R (S754_finite false m e) = (IZR d / 2251799813685248)%R.
Proof.
  intros He H. unfold to_R. cbn [cond_Zopp].
  replace e with ((e + 104) + (-104)) at 1 by lia.
  rewrite powerRZ_add by lra.
  rewrite <- IZR_pow2 by lia.
  rewrite <- Rmult_assoc, <- mult_IZR, H, mult_IZR.
  change (2 ^ 53) with 9007199254740992.
  replace (powerRZ 2 (-104)) with (/ 20282409603651670423947251286016)%R.
  - field.
  - unfold powerRZ. rewrite pow_IZR.
    change (2 ^ Z.of_nat (Pos.to_nat 104)) with 20282409603651670423947251286016.
    reflexivity.
Qed.

(** [abs(w - np.pi)] for a float [w] of [[2, np.pi)]: exact, positive and
    in canonical form. *)
Lemma abs_diff_exact (a : positive) :
  2 ^ 52 <= Zpos a -> Zpos a < 7074237752028440 ->
  exists mz ez,
    abs_diff (S754_finite false a (-51)) = S754_finite false mz ez
    /\ 2 ^ 52 <= Zpos mz < 2 ^ 53
    /\ -103 <= ez <= -52
    /\ Zpos mz * 2 ^ (ez + 104) = (7074237752028440 - Zpos a) * 2 ^ 53.
Proof.
  intros Ha HP. unfold abs_diff, Np.pi.
  apply float_abs_sub_exact; [exact Ha|exact HP|].
  change (2 ^ 53) with 9007199254740992. lia.
Qed.

(** ** The errors that the plot shows *)

(** The value at [n = 2000], the last point of the plot. *)
Lemma w_pi_2000 : w_pi 2000 = Return (S754_finite false 7073353748570874 (-51)).
Proof. apply w_pi_from_bracket; [lia| |]; vm_compute; reflexivity. Qed.

(** The calls of the plot stay below [np.pi]. *)
Lemma w_pi_below_np_pi (n : Z) :
  n <= 2000 ->
  exists a, w_pi n = Return (S754_finite false a (-51))
            /\ 2 ^ 52 <= Zpos a /\ Zpos a < 7074237752028440.
Proof.
  intros Hn.
  destruct (w_pi_mantissa_monotone n 2000 Hn) as (a & b & En & Eb & Hab).
  rewrite w_pi_2000 in Eb. injection Eb as <-.
  destruct (w_pi_mantissa n) as (a' & En' & Ha').
  rewrite En in En'. injection En' as <-.
  exists a. split; [exact En|]. lia.
Qed.




(** Up to [n = 2000] the error [abs(w_pi(n) - np.pi)] is computed
    without rounding, and it is positive. *)
Lemma abs_diff_w_pi_exact (n : Z) :
  n <= 2000 ->
  exists w,
    w_pi n = Return w
    /\ float_lt float_0_0 (abs_diff w) = true
    /\ to_R (abs_diff w) = (to_R Np.pi - to_R w)%R.
Proof.
  intros Hn.
  destruct (w_pi_below_np_pi n Hn) as (a & En & Ha & HaP).
  destruct (abs_diff_exact a Ha HaP) as (ma & ea & Da & Hma & Hea & Hva).
  exists (S754_finite false a (-51)). split; [exact En|].
  rewrite Da. split; [reflexivity|].
  unfold Np.pi.
  rewrite !to_R_m51, (to_R_scaled ma ea _ ltac:(lia) Hva), minus_IZR. field.
Qed.

Lemma abs_diff_w_pi_lt (n m : Z) :
  0 <= n -> n < m -> m <= 2000 ->
  exists wn wm,
    w_pi n = Return wn /\ w_pi m = Return wm
    /\ float_lt (abs_diff wm) (abs_diff wn) = true.
Proof.
  intros Hn Hnm Hm.
  destruct (w_pi_mantissa_increasing n m Hn Hnm) as (a & b & En & Em & Hab).
  { change (2 ^ 25) with 33554432. lia. }
  destruct (w_pi_below_np_pi n ltac:(lia)) as (a' & En' & Ha & HaP).
  rewrite En in En'. injection En' as <-.
  destruct (w_pi_below_np_pi m Hm) as (b' & Em' & Hb & HbP).
  rewrite Em in Em'. injection Em' as <-.
  destruct (abs_diff_exact a Ha HaP) as (ma & ea & Da & Hma & Hea & Hva).
  destruct (abs_diff_exact b Hb HbP) as (mb & eb & Db & Hmb & Heb & Hvb).
  exists (S754_finite false a (-51)), (S754_finite false b (-51)).
  split; [exact En|]. split; [exact Em|].
  rewrite Da, Db. apply float_lt_canonical; lia.
Qed.





(** ** The properties *)

(** Property X1 ([w_pi]).  The returned float never decreases with the
    number of factors: for all integers [n <= m], both calls return and
    [w_pi(m) < w_pi(n)] is false; the real values are ordered
    accordingly.  (Negative arguments return [2.0], the least value.) *)
Theorem w_pi_monotone (n m : Z) :
  n <= m ->
  exists x y,
    w_pi n = Return x /\ w_pi m = Return y
    /\ float_lt y x = false /\ (to_R x <= to_R y)%R.
Proof.
  intros Hnm.
  destruct (w_pi_mantissa_monotone n m Hnm) as (a & b & En & Em & Hab).
  exists (S754_finite false a (-51)), (S754_finite false b (-51)).
  split; [exact En|]. split; [exact Em|].
  rewrite float_lt_m51, !to_R_m51. split.
  - now apply Z.ltb_ge.
  - apply Rmult_le_compat_r; [lra|]. now apply IZR_le.
Qed.

Lemma w_pi_monotone_witness :
  3 <= 8 /\
  exists x y,
    w_pi 3 = Return x /\ w_pi 8 = Return y
    /\ float_lt y x = false /\ (to_R x <= to_R y)%R.
Proof.
  split; [lia|]. apply (w_pi_monotone 3 8). lia.
Defined.

(** Property X2 ([w_pi]).  Up to [2^25] factors every further factor
    changes the result: for [0 <= n < m <= 2^25] the float [w_pi(n)] is
    strictly below the float [w_pi(m)].  The increase of the exact
    product exceeds the rounding errors of the two divisions. *)
Theorem w_pi_strictly_increasing (n m : Z) :
  0 <= n -> n < m -> m <= 2 ^ 25 ->
  exists x y,
    w_pi n = Return x /\ w_pi m = Return y /\ float_lt x y = true.
Proof.
  intros Hn Hnm Hm.
  destruct (w_pi_mantissa_increasing n m Hn Hnm Hm) as (a & b & En & Em & Hab).
  exists (S754_finite false a (-51)), (S754_finite false b (-51)).
  split; [exact En|]. split; [exact Em|].
  rewrite float_lt_m51. apply Z.ltb_lt. exact Hab.
Qed.

Lemma w_pi_strictly_increasing_witness :
  0 <= 0 /\ 0 < 1 /\ 1 <= 2 ^ 25 /\
  exists x y, w_pi 0 = Return x /\ w_pi 1 = Return y /\ float_lt x y = true.
Proof.
  split; [lia|]. split; [lia|]. split; [change (2 ^ 25) with 33554432; lia|].
  apply (w_pi_strictly_increasing 0 1); [lia|lia|change (2 ^ 25) with 33554432; lia].
Defined.

(** Property X3 ([w_pi]).  Accuracy: for [n >= 1] the returned float is
    within [pi/(2n) + 2^-52], hence within [2/n + 2^-52], of pi.  The
    first term is the truncation of the product, the second the one
    rounding of the division. *)
Theorem w_pi_error_bound (n : Z) :
  1 <= n ->
  exists x,
    w_pi n = Return x
    /\ (Rabs (to_R x - PI) < PI / (2 * IZR n) + / 4503599627370496)%R
    /\ (Rabs (to_R x - PI) < 2 / IZR n + / 4503599627370496)%R.
Proof.
  intros Hn.
  destruct (w_pi_value n Hn) as (x & E & Hx & _).
  exists x. split; [exact E|].
  apply Rabs_le_bounds in Hx.
  pose proof (exact_lt_PI (Z.to_nat n)) as Hlt.
  pose proof (PI_lt_exact_upper (Z.to_nat n) ltac:(lia)) as Hup.
  rewrite INR_to_nat in Hup by lia.
  assert (Hn' : (1 <= IZR n)%R) by (apply IZR_le; exact Hn).
  set (e := Spec.exact (Z.to_nat n)) in *.
  assert (Hinv : (0 < / (2 * IZR n))%R) by (apply Rinv_0_lt_compat; lra).
  assert (Hgap : (PI - e < PI * / (2 * IZR n))%R).
  { assert ((e * / (2 * IZR n) < PI * / (2 * IZR n))%R)
      by (apply Rmult_lt_compat_r; assumption).
    lra. }
  assert (H4 : (PI * / (2 * IZR n) <= 2 / IZR n)%R).
  { pose proof PI_4 as P4. unfold Rdiv.
    replace (2 * / IZR n)%R with (4 * / (2 * IZR n))%R by (field; lra).
    apply Rmult_le_compat_r; lra. }
  unfold Rdiv at 1.
  split; apply Rabs_def1; lra.
Qed.

Lemma w_pi_error_bound_witness :
  1 <= 1000 /\
  exists x,
    w_pi 1000 = Return x
    /\ (Rabs (to_R x - PI) < PI / (2 * IZR 1000) + / 4503599627370496)%R
    /\ (Rabs (to_R x - PI) < 2 / IZR 1000 + / 4503599627370496)%R.
Proof.
  split; [lia|]. apply (w_pi_error_bound 1000). lia.
Defined.

(** Property X4 (the loop of [w_pi]).  The limits of 64-bit integers
    that the notebook's text speaks of: after the loop, [num] fits a
    signed 64-bit integer exactly when [n <= 9], and [den] exactly when
    [n <= 10]. *)
Theorem accumulators_fit_int64 (n : Z) :
  (num (loop n) <= 2 ^ 63 - 1 <-> n <= 9)
  /\ (den (loop n) <= 2 ^ 63 - 1 <-> n <= 10).
Proof.
  rewrite loop_products. cbn [num den]. split; split; intros H.
  - destruct (Z.le_gt_cases n 9) as [|Hgt]; [assumption|exfalso].
    pose proof (numerator_mono 10 (Z.to_nat n) ltac:(lia)) as Hm.
    assert (E : 2 ^ 63 <= Spec.numerator 10) by (vm_compute; discriminate).
    lia.
  - pose proof (numerator_mono (Z.to_nat n) 9 ltac:(lia)) as Hm.
    assert (E : Spec.numerator 9 <= 2 ^ 63 - 1) by (vm_compute; discriminate).
    lia.
  - destruct (Z.le_gt_cases n 10) as [|Hgt]; [assumption|exfalso].
    pose proof (denominator_mono 11 (Z.to_nat n) ltac:(lia)) as Hm.
    assert (E : 2 ^ 63 <= Spec.denominator 11) by (vm_compute; discriminate).
    lia.
  - pose proof (denominator_mono (Z.to_nat n) 10 ltac:(lia)) as Hm.
    assert (E : Spec.denominator 10 <= 2 ^ 63 - 1) by (vm_compute; discriminate).
    lia.
Qed.

(** Property X5 (the loop of [w_pi]).  Closed forms of the
    accumulators after [k] iterations: [num = 4^k * (k!)^2], and
    [num * den = (2k)! * (2k+1)!]. *)
Theorem loop_closed_form (k : nat) :
  num (loop (Z.of_nat k)) = 4 ^ Z.of_nat k * Z.of_nat (fact k) ^ 2
  /\ num (loop (Z.of_nat k)) * den (loop (Z.of_nat k))
     = Z.of_nat (fact (2 * k)) * Z.of_nat (fact (2 * k + 1)).
Proof.
  rewrite loop_products, Nat2Z.id. cbn [num den].
  apply products_closed_form.
Qed.

(** Property X6 ([diff = abs(wpi-np.pi)]).  For [0 <= n < m <= 2000]
    the error computed for [m] is strictly smaller than the one computed
    for [n]; both are positive, and both are exact: the floating-point
    subtraction and [abs] return [np.pi - w_pi(.)] without rounding. *)
Theorem error_decreases (n m : Z) :
  0 <= n -> n < m -> m <= 2000 ->
  exists wn wm,
    w_pi n = Return wn /\ w_pi m = Return wm
    /\ float_lt (abs_diff wm) (abs_diff wn) = true
    /\ float_lt float_0_0 (abs_diff wm) = true
    /\ to_R (abs_diff wn) = (to_R Np.pi - to_R wn)%R
    /\ to_R (abs_diff wm) = (to_R Np.pi - to_R wm)%R.
Proof.
  intros Hn Hnm Hm.
  destruct (abs_diff_w_pi_lt n m Hn Hnm Hm) as (wn & wm & En & Em & Hlt).
  destruct (abs_diff_w_pi_exact n ltac:(lia)) as (wn' & En' & _ & Hrn).
  rewrite En in En'. injection En' as <-.
  destruct (abs_diff_w_pi_exact m Hm) as (wm' & Em' & Hpos & Hrm).
  rewrite Em in Em'. injection Em' as <-.
  exists wn, wm. repeat (split; [assumption|]). assumption.
Qed.

Lemma error_decreases_witness :
  0 <= 10 /\ 10 < 114 /\ 114 <= 2000 /\
  exists wn wm,
    w_pi 10 = Return wn /\ w_pi 114 = Return wm
    /\ float_lt (abs_diff wm) (abs_diff wn) = true
    /\ float_lt float_0_0 (abs_diff wm) = true
    /\ to_R (abs_diff wn) = (to_R Np.pi - to_R wn)%R
    /\ to_R (abs_diff wm) = (to_R Np.pi - to_R wm)%R.
Proof.
  split; [lia|]. split; [lia|]. split; [lia|].
  apply (error_decreases 10 114); lia.
Defined.



